(** * Neptune, ExtractSignatures.py: candidate extraction and its estimators

    A shallow embedding of [src/neptune/ExtractSignatures.py].

    - Python [int] is [Z]; Python [float] is idealised as a real number
      ([R]), with the exceptions the arithmetic can raise written out:
      a float division by zero raises [ZeroDivisionError] and
      [math.sqrt] of a negative number raises [ValueError].  The rounding
      of doubles, their infinities and the float that is not a number are
      outside the model: what is proved of the estimators is proved of
      their exact arithmetic, and the statements are chosen among those
      that rounding keeps (ranges, orders, the errors of exact zeros).
    - Python [str] is [string]; a [dict] is a [gmap]; [None] is an
      [option].
    - A function that can raise returns a [result].
    - [scipy.stats.norm.ppf] is the quantile function of the standard
      normal distribution. *)

From Stdlib Require Import ZArith Lia String Ascii List.
From Stdlib Require Import Reals Lra ClassicalEpsilon.
From stdpp Require Import base option list gmap strings.
Import ListNotations.

Local Open Scope string_scope.
Local Open Scope Z_scope.

(** ** Exceptions *)

Inductive exn : Type :=
| RuntimeError (msg : string)
| ZeroDivisionError
| ValueError
| IndexError.

Inductive result (A : Type) : Type :=
| OK (a : A)
| Raise (e : exn).

Arguments OK {A} a.
Arguments Raise {A} e.

Definition rbind {A B : Type} (m : result A) (f : A -> result B) : result B :=
  match m with
  | OK a => f a
  | Raise e => Raise e
  end.

Notation "'do' x <- m ; k" := (rbind m (fun x => k))
  (at level 10, x name, m at level 100, k at level 200).
Notation "'check' b 'else' e ; k" := (if b then Raise e else k)
  (at level 10, b at level 100, e at level 100, k at level 200).

(** ** Python strings *)

Module PyStr.

(** [len(s)] *)
Definition len (s : string) : Z := Z.of_nat (String.length s).

(** An index of a slice, as [s[lo:hi]] reads it: a negative index counts
    from the end, and the result is clamped to [0 .. len(s)]. *)
Definition clamp (n i : Z) : Z :=
  if i <? 0 then Z.max 0 (i + n) else Z.min i n.

(** [s[lo:hi]] *)
Definition slice (s : string) (lo hi : Z) : string :=
  let l := clamp (len s) lo in
  let h := clamp (len s) hi in
  String.substring (Z.to_nat l) (Z.to_nat (h - l)) s.

(** The characters [str.strip()] removes: space, \t, \n, \v, \f, \r. *)
Definition isspace (c : ascii) : bool :=
  let n := nat_of_ascii c in
  (Nat.eqb n 32 || (Nat.leb 9 n && Nat.leb n 13))%bool.

Fixpoint lstrip (s : string) : string :=
  match s with
  | EmptyString => EmptyString
  | String c s' => if isspace c then lstrip s' else s
  end.

(** [rstrip] drops the trailing white space: a character is kept when it
    is not white space or something is kept after it. *)
Fixpoint rstrip (s : string) : string :=
  match s with
  | EmptyString => EmptyString
  | String c s' =>
      match rstrip s' with
      | EmptyString => if isspace c then EmptyString else String c EmptyString
      | t => String c t
      end
  end.

(** [s.strip()] *)
Definition strip (s : string) : string := rstrip (lstrip s).

(** [s.split()]: the maximal runs of characters that are not white space;
    [cur] is the run being read. *)
Fixpoint split_from (cur : string) (s : string) : list string :=
  match s with
  | EmptyString =>
      match cur with EmptyString => [] | _ => [cur] end
  | String c s' =>
      if isspace c
      then match cur with
           | EmptyString => split_from EmptyString s'
           | _ => cur :: split_from EmptyString s'
           end
      else split_from (cur +:+ String c EmptyString) s'
  end.

Definition split (s : string) : list string := split_from EmptyString s.

Definition digit (c : ascii) : option Z :=
  let n := nat_of_ascii c in
  if (Nat.leb 48 n && Nat.leb n 57)%bool
  then Some (Z.of_nat (n - 48))
  else None.

Fixpoint digits (acc : Z) (s : string) : option Z :=
  match s with
  | EmptyString => Some acc
  | String c s' =>
      match digit c with
      | Some d => digits (10 * acc + d) s'
      | None => None
      end
  end.

(** The value of a non-empty string of decimal digits. *)
Definition number (s : string) : option Z :=
  match s with
  | EmptyString => None
  | _ => digits 0 s
  end.

(** [int(s)]: white space around the literal is ignored; the literal is
    an optional sign and decimal digits. *)
Definition to_int (s : string) : result Z :=
  let literal :=
    match strip s with
    | String "-" t => option_map Z.opp (number t)
    | String "+" t => number t
    | t => number t
    end%char in
  match literal with
  | Some n => OK n
  | None => Raise ValueError
  end.

End PyStr.

(** [range(n)] *)
Definition range (n : Z) : list Z := map Z.of_nat (seq 0 (Z.to_nat n)).

(** ** Region and Signature *)

Record Region : Type := mkRegion {
  sequence : string;
  reference : string;
  position : Z
}.

(** Modelled from the spec: the [Signature] module is not among the
    sources.  A signature record is {sequential id, three scoring fields,
    sequence, source reference id, start position}; the scores are
    floats. *)
Record Signature : Type := mkSignature {
  sig_id : Z;
  sig_score : R;
  sig_inscore : R;
  sig_exscore : R;
  sig_sequence : string;
  sig_reference : string;
  sig_position : Z
}.

(** Modelled from the spec: [Signature.writeSignature] hands the record to
    the output collaborator, which accepts an ordered sequence of
    records; an output file is the list of records written so far. *)
Definition writeSignature (s : Signature) (outputFile : list Signature)
  : list Signature := outputFile ++ [s].

(** ** The scanner *)

(** [len(d)] for a dictionary [d] *)
Definition dlen {V : Type} (d : gmap string V) : Z := Z.of_nat (base.size d).

(** [kmer in d] for a dictionary [d] *)
Definition mem (kmer : string) (d : gmap string Z) : bool :=
  bool_decide (is_Some (d !! kmer)).

(** The variables the loop of [extract] carries: the chain bounds
    ([-1] when no chain is open) and the regions found so far. *)
Record scan : Type := mkScan {
  start : Z;
  end_ : Z;
  regions : list Region
}.

Section Scanner.

(** [Utility.reverseComplement] is imported, not defined, by the source
    file; the scanner is written over any such function. *)
Variable reverseComplement : string -> string.

Variables (ref key : string) (k : Z) (inmers exmers : gmap string Z)
          (size gap : Z).

(** Lines 224-226, 250-252 and 257-259: the region is appended when the
    guard holds. *)
Definition close (guard : bool) (s : scan) : list Region :=
  if guard
  then regions s ++ [mkRegion (PyStr.slice ref (start s) (end_ s)) key (start s)]
  else regions s.

(** Lines 236-255: an inclusion hit at window [i]. *)
Definition build (s : scan) (i : Z) : scan :=
  (* new chain *)
  let s1 :=
    if ((start s <? 0) && (end_ s <? 0))%bool
    then mkScan (i + k - 1) (i + 1) (regions s)
    else s in
  (* hit with something else started *)
  if ((0 <=? start s1) && (0 <=? end_ s1))%bool
  then
    if i - (end_ s1 + 1) <=? gap
    then mkScan (start s1) (i + 1) (regions s1)
    else mkScan (i + k - 1) (i + 1)
                (close (size <=? end_ s1 - start s1) s1)
  else s1.

(** Lines 216-255: the body of the loop over the windows. *)
Definition step (s : scan) (i : Z) : scan :=
  let kmer := PyStr.slice ref i (i + k) in
  let reverse := reverseComplement kmer in
  if (mem kmer exmers || mem reverse exmers)%bool
  then mkScan (-1) (-1) (close (size <=? end_ s - start s) s)
  else if (mem kmer inmers || mem reverse inmers)%bool
  then build s i
  else s.

(** Lines 214-255: all the windows of one reference, from the left. *)
Definition windows : list Z := range (PyStr.len (PyStr.strip ref) - k + 1).

Definition scanWindows (rs : list Region) : scan :=
  fold_left step windows (mkScan (-1) (-1) rs).

(** Lines 209-259: one reference. *)
Definition scanReference (rs : list Region) : list Region :=
  let s := scanWindows rs in
  close ((0 <=? start s) && (0 <? end_ s) && (size <=? end_ s - start s))%bool s.

End Scanner.

(** Lines 204-259: [for key in references]. *)
Definition scanReferences (rc : string -> string)
    (references : gmap string string) (k : Z)
    (inmers exmers : gmap string Z) (size gap : Z) : list Region :=
  fold_left
    (fun rs kr => scanReference rc (snd kr) (fst kr) k inmers exmers size gap rs)
    (map_to_list references) [].

(** Lines 261-267: one signature per region, numbered in order. *)
Fixpoint writeSignatures (i : Z) (rs : list Region)
    (outputFile : list Signature) : list Signature :=
  match rs with
  | [] => outputFile
  | r :: rs' =>
      writeSignatures (i + 1) rs'
        (writeSignature
           (mkSignature i 0%R 0%R 0%R
                        (sequence r) (reference r) (position r))
           outputFile)
  end.

(** [extract]: the result is the list [regions] together with the output
    file after the signatures are written. *)
Definition extract (rc : string -> string)
    (references : option (gmap string string)) (k : Z)
    (inmers exmers : option (gmap string Z)) (size gap : Z)
    (outputFile : option (list Signature))
  : result (list Region * list Signature) :=
  match references with
  | None => Raise (RuntimeError "There are no references.")
  | Some references =>
  check (dlen references <? 1)
    else RuntimeError "There are no references.";
  check (k <? 1) else RuntimeError "The k-mer size is out of range.";
  match inmers with
  | None => Raise (RuntimeError "There are no inclusion k-mers.")
  | Some inmers =>
  check (dlen inmers <? 1)
    else RuntimeError "There are no inclusion k-mers.";
  match exmers with
  | None => Raise (RuntimeError "There are no exclusion k-mers.")
  | Some exmers =>
  check (size <? 1) else RuntimeError "The signature size is out of range.";
  check (gap <? 1) else RuntimeError "The gap size is out of range.";
  match outputFile with
  | None => Raise (RuntimeError "The output location is not specified.")
  | Some outputFile =>
      let regions := scanReferences rc references k inmers exmers size gap in
      OK (regions, writeSignatures 0 regions outputFile)
  end end end end.

(** ** Reverse complement *)

(** Modelled from the spec: [Utility.reverseComplement] is not among the
    sources.  The reverse complement is the sequence obtained by reversing
    a strand and substituting each base with its Watson-Crick pair; a
    character that is not one of the four bases is kept. *)
Definition complement (c : ascii) : ascii :=
  match c with
  | "A" => "T"
  | "T" => "A"
  | "C" => "G"
  | "G" => "C"
  | _ => c
  end%char.

Fixpoint reverseComplement (s : string) : string :=
  match s with
  | EmptyString => EmptyString
  | String c s' => reverseComplement s' +:+ String (complement c) EmptyString
  end.

(** ** Python floats *)

Module PyFloat.

Local Open Scope R_scope.

(** The comparisons of two floats that are numbers. *)
Definition ltb (x y : R) : bool := if Rlt_dec x y then true else false.
Definition leb (x y : R) : bool := if Rle_dec x y then true else false.
Definition eqb (x y : R) : bool := if Req_dec_T x y then true else false.

(** [x / y] on floats *)
Definition div (x y : R) : result R :=
  if eqb y 0 then Raise ZeroDivisionError else OK (x / y).

(** [math.sqrt(x)] *)
Definition sqrt (x : R) : result R :=
  if ltb x 0 then Raise ValueError else OK (R_sqrt.sqrt x).

(** [math.pow(x, n)] for an exponent with an integer value *)
Definition pow (x : R) (n : Z) : result R :=
  if (eqb x 0 && (n <? 0)%Z)%bool then Raise ValueError else OK (powerRZ x n).

(** [int(x)]: truncation towards zero *)
Definition to_int (x : R) : Z := if leb 0 x then Zfloor x else Zceil x.

End PyFloat.

(** ** The standard normal distribution *)

Module Normal.

Local Open Scope R_scope.

(** The density of the standard normal distribution. *)
Definition pdf (t : R) : R := exp (- (t * t) / 2) / sqrt (2 * PI).

Lemma pdf_continuity : continuity pdf.
Proof. unfold pdf. reg. Qed.

Lemma pdf_integrable (a b : R) : Riemann_integrable pdf a b.
Proof.
  destruct (Rle_dec a b) as [Hab|Hab].
  - apply continuity_implies_RiemannInt; [exact Hab|].
    intros x _. apply pdf_continuity.
  - apply RiemannInt_P1, continuity_implies_RiemannInt; [lra|].
    intros x _. apply pdf_continuity.
Defined.

(** The cumulative distribution function. *)
Definition cdf (x : R) : R := 1 / 2 + RiemannInt (pdf_integrable 0 x).

(** [scipy.stats.norm.ppf]: the point at which [cdf] takes the
    value [c]. *)
Definition ppf (c : R) : R := epsilon (inhabits 0) (fun x => cdf x = c).

End Normal.

(** ** Parameter estimation *)

Section Estimators.

Local Open Scope R_scope.
Import PyFloat.

(** Lines 289-304. *)
Definition calculateProbHBMM (GC : R) : result R :=
  check (ltb GC 0 || ltb 1 GC)%bool
    else RuntimeError "The GC-content is out of range.";
  do a <- div GC (GC + 1);
  do a2 <- pow a 2;
  do b <- div (1 - GC) (GC + 1);
  do b2 <- pow b 2;
  do c <- div (1 - GC) (2 - GC);
  do c2 <- pow c 2;
  do d <- div GC (2 - GC);
  do d2 <- pow d 2;
  OK ((2 * a2 + b2) * (1 - GC) + (2 * c2 + d2) * GC).

(** Lines 328-346. *)
Definition calculateProbHBM (mutationRate GC : R) : result R :=
  check (ltb mutationRate 0 || ltb 1 mutationRate)%bool
    else RuntimeError "The mutationRate is out of range.";
  check (ltb GC 0 || ltb 1 GC)%bool
    else RuntimeError "The GC-content is out of range.";
  let M := mutationRate in
  do probHBMM <- calculateProbHBMM GC;
  OK ((1 - M) * (1 - M) + M * M * probHBMM).

(** Lines 371-391. *)
Definition calculateProbHKM (mutationRate GC : R) (kmerSize : Z) : result R :=
  check (ltb mutationRate 0 || ltb 1 mutationRate)%bool
    else RuntimeError "The mutationRate is out of range.";
  check (ltb GC 0 || ltb 1 GC)%bool
    else RuntimeError "The GC-content is out of range.";
  check (kmerSize <? 1)%Z
    else RuntimeError "The k-mer size is out of range.";
  do probHBM <- calculateProbHBM mutationRate GC;
  pow probHBM kmerSize.

(** Lines 409-415. *)
Definition estimateSignatureSize (kmerSize : Z) : result Z :=
  let FACTOR := 4 in
  let estimate := FACTOR * IZR kmerSize in
  OK (to_int estimate).

(** Lines 461-464: the mean and the variance of the recurrence time
    (Feller), for [p] and [k = float(kmerSize)]; [k] has an integer value,
    which is the exponent [math.pow] gets. *)
Definition gapMoments (p : R) (kmerSize : Z) : result (R * R) :=
  let q := 1 - p in
  let k := IZR kmerSize in
  do pk <- pow p kmerSize;
  do pk' <- pow p kmerSize;
  do mean <- div (1 - pk) (q * pk');
  do pk2 <- pow p kmerSize;
  do qpk2 <- pow (q * pk2) 2;
  do v1 <- div 1 qpk2;
  do pk3 <- pow p kmerSize;
  do v2 <- div (2 * k + 1) (q * pk3);
  do q2 <- pow q 2;
  do v3 <- div p q2;
  let variance := v1 - v2 - v3 in
  OK (mean, variance).

(** Lines 465-471: the bound of Chebyshev's inequality, from the mean and
    the variance. *)
Definition gapEstimate (mean variance c : R) : result Z :=
  do stdev <- sqrt variance;
  do d <- div 1 (1 - c);
  do deviations <- sqrt d;
  let estimate := Zceil (mean + deviations * stdev) in
  OK estimate.

(** Lines 438-471. *)
Definition estimateGapSize (mutationRate GC : R) (kmerSize : Z)
    (confidence : R) : result Z :=
  check (ltb mutationRate 0 || ltb 1 mutationRate)%bool
    else RuntimeError "The mutationRate is out of range.";
  check (ltb GC 0 || ltb 1 GC)%bool
    else RuntimeError "The GC-content is out of range.";
  check (kmerSize <? 1)%Z
    else RuntimeError "The k-mer size is out of range.";
  check (leb confidence 0 || leb 1 confidence)%bool
    else RuntimeError "The statistical confidence is out of range.";
  do p <- calculateProbHBM mutationRate GC;
  do moments <- gapMoments p kmerSize;
  gapEstimate (fst moments) (snd moments) confidence.

(** Lines 494-498. *)
Definition estimateExclusionHits (totalExclusion : Z) (rate : R)
    (kmerSize : Z) : result R :=
  let estimate := 1 in
  OK estimate.

(** Lines 523-556. *)
Definition estimateInclusionHits (totalInclusion : Z)
    (mutationRate GC : R) (kmerSize : Z) (confidence : R) : result R :=
  check (ltb mutationRate 0 || ltb 1 mutationRate)%bool
    else RuntimeError "The mutationRate is out of range.";
  check (ltb GC 0 || ltb 1 GC)%bool
    else RuntimeError "The GC-content is out of range.";
  check (kmerSize <? 1)%Z
    else RuntimeError "The k-mer size is out of range.";
  check (leb confidence 0 || leb 1 confidence)%bool
    else RuntimeError "The statistical confidence is out of range.";
  let deviations := Normal.ppf confidence in
  do p <- calculateProbHKM mutationRate GC kmerSize;
  let q := 1 - p in
  let N := IZR totalInclusion in
  (* Binomial Distribution *)
  let mean := (N - 1) * p in
  let variance := (N - 1) * p * q in
  do stdev <- sqrt variance;
  let estimate := IZR (Zfloor (1 + mean - deviations * stdev)) in
  let estimate := Rmax 0 estimate in
  OK estimate.

End Estimators.

(** ** The k-mer dictionaries *)

(** [tokens[i]] *)
Definition index (tokens : list string) (i : nat) : result string :=
  match nth_error tokens i with
  | Some t => OK t
  | None => Raise IndexError
  end.

(** Lines 614-618: the k-mer and the two counts of a line. *)
Definition readKMer (line : string) : result (string * (Z * Z)) :=
  let tokens := PyStr.split line in
  do t0 <- index tokens 0;
  let kmer := PyStr.strip t0 in
  do t1 <- index tokens 1;
  do incount <- PyStr.to_int (PyStr.strip t1);
  do t2 <- index tokens 2;
  do excount <- PyStr.to_int (PyStr.strip t2);
  OK (kmer, (incount, excount)).

(** Lines 620-624: the k-mer is stored on the sides whose threshold its
    count meets. *)
Definition store (hits : R) (kmer : string) (count : Z)
    (mers : gmap string Z) : gmap string Z :=
  if PyFloat.leb hits (IZR count) then <[kmer := count]> mers else mers.

(** Lines 610-624.  The file is the list of its lines; the thresholds are
    the floats [parse] gets from the estimators (or integers given on the
    command line). *)
Fixpoint buildKMers (kmerFile : list string) (inmers exmers : gmap string Z)
    (inhits exhits : R) : result (gmap string Z * gmap string Z) :=
  match kmerFile with
  | [] => OK (inmers, exmers)
  | line :: rest =>
      do entry <- readKMer line;
      let kmer := fst entry in
      let incount := fst (snd entry) in
      let excount := snd (snd entry) in
      buildKMers rest (store inhits kmer incount inmers)
                 (store exhits kmer excount exmers) inhits exhits
  end.

(** The file lists the count table: each line reads as one entry of the
    table, every entry has a line, and no k-mer has two. *)
Definition lists_table (kmerFile : list string)
    (table : gmap string (Z * Z)) : Prop :=
  exists entries : list (string * (Z * Z)),
    Forall2 (fun line entry => readKMer line = OK entry) kmerFile entries /\
    NoDup (map fst entries) /\
    table = list_to_map entries.

(** ** Failing on an argument out of range *)

(** The function raised the [RuntimeError] of a range check. *)
Definition rejects {A : Type} (m : result A) : Prop :=
  exists msg, m = Raise (RuntimeError msg).

(** ** The formulas of the specification *)

Module Spec.

Local Open Scope R_scope.

(** [f(GC) = [2*(GC/(GC+1))^2 + ((1-GC)/(GC+1))^2]*(1-GC)
           + [2*((1-GC)/(2-GC))^2 + (GC/(2-GC))^2]*GC] *)
Definition probHomologousBaseMutateMatch (GC : R) : R :=
  (2 * (GC / (GC + 1)) ^ 2 + ((1 - GC) / (GC + 1)) ^ 2) * (1 - GC)
  + (2 * ((1 - GC) / (2 - GC)) ^ 2 + (GC / (2 - GC)) ^ 2) * GC.

(** [(1-M)^2 + M^2 * f(GC)] *)
Definition probHomologousBaseMatch (M GC : R) : R :=
  (1 - M) ^ 2 + M ^ 2 * probHomologousBaseMutateMatch GC.

(** [probHomologousBaseMatch(M,GC)^k] *)
Definition probHomologousKmerMatch (M GC : R) (k : Z) : R :=
  probHomologousBaseMatch M GC ^ Z.to_nat k.

(** [mean = (1-p^k)/(q*p^k)] where [q = 1-p] *)
Definition gapMean (p : R) (k : Z) : R :=
  (1 - p ^ Z.to_nat k) / ((1 - p) * p ^ Z.to_nat k).

(** [variance = 1/(q*p^k)^2 - (2k+1)/(q*p^k) - p/q^2] where [q = 1-p] *)
Definition gapVariance (p : R) (k : Z) : R :=
  1 / ((1 - p) * p ^ Z.to_nat k) ^ 2
  - (2 * IZR k + 1) / ((1 - p) * p ^ Z.to_nat k)
  - p / (1 - p) ^ 2.

(** [ceil(mean + sqrt(1/(1-confidence)) * sqrt(variance))] *)
Definition gapSize (M GC : R) (k : Z) (confidence : R) : Z :=
  let p := probHomologousBaseMatch M GC in
  Zceil (gapMean p k + sqrt (1 / (1 - confidence)) * sqrt (gapVariance p k)).

End Spec.

(** ** Helpers of the proofs *)

(** The estimate of [estimateInclusionHits] before rounding, for
    [x = N - 1] further genomes, match probability [p] and [z]
    deviations. *)
Definition hits (p z x : R) : R :=
  (1 + x * p - z * sqrt (x * p * (1 - p)))%R.

(** The numerator of the variance of the recurrence time over the common
    denominator [(q * p^n)^2]. *)
Definition excess (p : R) (n : nat) : R :=
  (1 - (2 * INR n + 1) * ((1 - p) * p ^ n) - p * (p ^ n * p ^ n))%R.

(** The dictionary after the entries are stored, for the count [count]
    picks of the two. *)
Definition stored (hits : R) (count : Z * Z -> Z)
    (entries : list (string * (Z * Z))) (mers : gmap string Z)
  : gmap string Z :=
  fold_left (fun m e => store hits (fst e) (count (snd e)) m) entries mers.

(** The chain is closed, or its bounds lie in the reference. *)
Definition chain_ok (ref : string) (s : scan) : Prop :=
  (start s = -1 /\ end_ s = -1) \/
  (0 <= start s /\ 1 <= end_ s <= PyStr.len ref).

(** A region cut from [ref]: at least [size] long, and its sequence is
    the slice from its position to an end in the reference. *)
Definition cut_from (ref key : string) (size : Z) (r : Region) : Prop :=
  reference r = key /\
  exists e, 0 <= position r /\ e <= PyStr.len ref /\
            size <= e - position r /\
            sequence r = PyStr.slice ref (position r) e.

(** The invariant of the loop over the windows of [ref], for a property
    [P] of the regions found. *)
Definition scan_ok (P : Region -> Prop) (ref : string) (s : scan) : Prop :=
  chain_ok ref s /\ Forall P (regions s).

(** A region that was cut from the reference its name stands for. *)
Definition emitted_from (references : gmap string string) (size : Z)
    (r : Region) : Prop :=
  exists ref e,
    references !! reference r = Some ref /\
    0 <= position r /\ e <= PyStr.len ref /\
    size <= e - position r /\
    sequence r = PyStr.slice ref (position r) e.

(** ** Sample inputs *)

(** The reference collection of the scenario of the specification. *)
Definition scenario_references : gmap string string :=
  {[ "ref" := "AAAAACCCCC" ]}.

(** Its inclusion dictionary; the count is what [buildKMers] would store. *)
Definition scenario_inmers : gmap string Z := {[ "AAAAA" := 1 ]}.

(** Dictionaries of 2-mers: "AA" supports inclusion, and "CC" supports
    both inclusion and exclusion. *)
Definition pair_inmers : gmap string Z := {[ "AA" := 3; "CC" := 2 ]}.
Definition pair_exmers : gmap string Z := {[ "CC" := 1 ]}.

(** The aggregated k-mers of the header of the source file. *)
Definition sample_kmerFile : list string :=
  [ "AAAAA 3 1" +:+ String "010" EmptyString;
    "AAAAC 1 2" +:+ String "010" EmptyString;
    "AAAAG 3 3" +:+ String "010" EmptyString;
    "AAAAT 3 0" +:+ String "010" EmptyString ].

Definition sample_entries : list (string * (Z * Z)) :=
  [ ("AAAAA", (3, 1)); ("AAAAC", (1, 2)); ("AAAAG", (3, 3));
    ("AAAAT", (3, 0)) ].

Definition sample_table : gmap string (Z * Z) := list_to_map sample_entries.

(** ** Windows and the regions they support *)

(** The window at [i] hits the dictionary [d]: its k-mer or the reverse
    complement of it is a key (the tests of lines 221 and 234). *)
Definition hit (rc : string -> string) (ref : string) (k : Z)
    (d : gmap string Z) (i : Z) : bool :=
  (mem (PyStr.slice ref i (i + k)) d
   || mem (rc (PyStr.slice ref i (i + k))) d)%bool.

(** The first and the last window that overlap a region: the windows
    [i] with [i <= position + len - 1] and [position <= i + k - 1]. *)
Definition first_window (k : Z) (r : Region) : Z := position r - k + 1.

Definition last_window (r : Region) : Z :=
  position r + PyStr.len (sequence r) - 1.

(** The windows that overlap the region are windows of the scan, the
    first and the last of them hit the inclusion dictionary and none of
    them hits the exclusion dictionary. *)
Definition supported (rc : string -> string) (ref : string) (k : Z)
    (inmers exmers : gmap string Z) (r : Region) : Prop :=
  0 <= first_window k r <= last_window r /\
  last_window r < PyStr.len (PyStr.strip ref) - k + 1 /\
  hit rc ref k inmers (first_window k r) = true /\
  hit rc ref k inmers (last_window r) = true /\
  forall i, first_window k r <= i <= last_window r ->
            hit rc ref k exmers i = false.

(** Regions in the order of the reference, at least [k] characters
    apart. *)
Definition apart (k : Z) (r1 r2 : Region) : Prop :=
  position r1 + PyStr.len (sequence r1) + k <= position r2.

Definition ordered (k : Z) (rs : list Region) : Prop :=
  forall (i j : nat) (r1 r2 : Region),
    (i < j)%nat -> rs !! i = Some r1 -> rs !! j = Some r2 -> apart k r1 r2.

(** The state of the loop with [rs] in front of its regions. *)
Definition prepend (rs : list Region) (s : scan) : scan :=
  mkScan (start s) (end_ s) (rs ++ regions s).

(** A region of the reference [ref] named [key]: long enough, and
    supported by the windows that overlap it. *)
Definition region_ok (rc : string -> string) (ref key : string) (k : Z)
    (inmers exmers : gmap string Z) (size : Z) (r : Region) : Prop :=
  reference r = key /\
  sequence r = PyStr.slice ref (position r)
                 (position r + PyStr.len (sequence r)) /\
  size <= PyStr.len (sequence r) /\
  supported rc ref k inmers exmers r.

(** The chain of the state [s] before the window [n] is read: closed, or
    open from the window [start - k + 1] to the window [end - 1], both
    inclusion hits, with no exclusion hit since the first. *)
Definition chain_inv (rc : string -> string) (ref : string) (k : Z)
    (inmers exmers : gmap string Z) (n : Z) (s : scan) : Prop :=
  (start s = -1 /\ end_ s = -1 /\
   Forall (fun r => last_window r + 2 <= n) (regions s)) \/
  (0 <= start s - k + 1 <= end_ s - 1 /\ end_ s - 1 < n /\
   hit rc ref k inmers (start s - k + 1) = true /\
   hit rc ref k inmers (end_ s - 1) = true /\
   (forall i, start s - k + 1 <= i < n -> hit rc ref k exmers i = false) /\
   Forall (fun r => last_window r + 2 <= start s - k + 1) (regions s)).

(** The invariant of the loop over the windows, before the window [n]. *)
Definition scan_inv (rc : string -> string) (ref key : string) (k : Z)
    (inmers exmers : gmap string Z) (size : Z) (n : Z) (s : scan) : Prop :=
  Forall (region_ok rc ref key k inmers exmers size) (regions s) /\
  ordered k (regions s) /\
  chain_inv rc ref k inmers exmers n s.

(** Regions of the same reference come in its order, at least [k]
    characters apart. *)
Definition ordered_by_reference (k : Z) (rs : list Region) : Prop :=
  forall (i j : nat) (r1 r2 : Region),
    (i < j)%nat -> rs !! i = Some r1 -> rs !! j = Some r2 ->
    reference r1 = reference r2 -> apart k r1 r2.

(** ** The k-mer size of a file *)

(** [kmerFile.readline()] on a file just opened: its first line, or the
    empty string when it has none. *)
Definition readline (kmerFile : list string) : string :=
  match kmerFile with
  | [] => EmptyString
  | line :: _ => line
  end.

(** Lines 574-581. *)
Definition estimateK (kmerFile : list string) : result Z :=
  let line := readline kmerFile in
  do kmer <- index (PyStr.split line) 0;
  let estimate := PyStr.len kmer in
  OK estimate.

(** A string without white space. *)
Fixpoint solid (s : string) : bool :=
  match s with
  | EmptyString => true
  | String c s' => (negb (PyStr.isspace c) && solid s')%bool
  end.

(** A string of white space only. *)
Fixpoint blank (s : string) : bool :=
  match s with
  | EmptyString => true
  | String c s' => (PyStr.isspace c && blank s')%bool
  end.

(** ** Further sample inputs *)

(** A reference with two runs of "A" around an exclusion k-mer. *)
Definition gapped_references : gmap string string :=
  {[ "ref" := "AAAACCAAAA" ]}.

(** * Properties *)

(** ** Strings and slices *)

Lemma length_substring (s : string) (n m : nat) :
  (n + m <= String.length s)%nat ->
  String.length (String.substring n m s) = m.
Proof.
  revert n m. induction s as [|c s IH]; intros n m Hle; simpl in *.
  - destruct n, m; simpl; lia.
  - destruct n as [|n].
    + destruct m as [|m]; simpl; [reflexivity|].
      rewrite IH; [reflexivity | lia].
    + apply IH. lia.
Qed.

Lemma len_slice (s : string) (lo hi : Z) :
  0 <= lo <= hi -> hi <= PyStr.len s ->
  PyStr.len (PyStr.slice s lo hi) = hi - lo.
Proof.
  intros Hlo Hhi. unfold PyStr.slice, PyStr.clamp, PyStr.len in *.
  destruct (Z.ltb_spec lo 0); [lia|].
  destruct (Z.ltb_spec hi 0); [lia|].
  rewrite !Z.min_l by lia.
  rewrite length_substring by lia. lia.
Qed.

Lemma length_lstrip (s : string) :
  (String.length (PyStr.lstrip s) <= String.length s)%nat.
Proof.
  induction s as [|c s IH]; simpl; [lia|].
  destruct (PyStr.isspace c); simpl; lia.
Qed.

Lemma length_rstrip (s : string) :
  (String.length (PyStr.rstrip s) <= String.length s)%nat.
Proof.
  induction s as [|c s IH]; simpl; [lia|].
  destruct (PyStr.rstrip s); [destruct (PyStr.isspace c)|]; simpl in *; lia.
Qed.

Lemma len_strip (s : string) : PyStr.len (PyStr.strip s) <= PyStr.len s.
Proof.
  unfold PyStr.len, PyStr.strip.
  pose proof (length_rstrip (PyStr.lstrip s)).
  pose proof (length_lstrip s). lia.
Qed.

Lemma in_range (n i : Z) : In i (range n) <-> 0 <= i < n.
Proof.
  unfold range. rewrite in_map_iff. split.
  - intros (j & <- & Hj). apply in_seq in Hj. lia.
  - intros Hi. exists (Z.to_nat i). split; [lia|]. apply in_seq. lia.
Qed.

(** ** The scanner's invariants *)

Section ScannerFacts.

Variable rc : string -> string.
Variables (ref key : string) (k : Z) (inmers exmers : gmap string Z)
          (size gap : Z).

Hypothesis k_pos : 1 <= k.
Hypothesis size_pos : 1 <= size.

Variable P : Region -> Prop.
Hypothesis P_cut : forall r, cut_from ref key size r -> P r.


Lemma close_ok (s : scan) (guard : bool) :
  scan_ok P ref s ->
  (guard = true -> size <= end_ s - start s) ->
  Forall P (close ref key guard s).
Proof.
  intros [Hc Hr] Hg. unfold close. destruct guard; [|exact Hr].
  specialize (Hg eq_refl).
  apply Forall_app. split; [exact Hr|].
  constructor; [|constructor].
  apply P_cut. split; [reflexivity|]. simpl.
  exists (end_ s). destruct Hc as [[? ?]|[? ?]]; [lia|].
  repeat split; try lia.
Qed.

Lemma build_ok (s : scan) (i : Z) :
  0 <= i < PyStr.len (PyStr.strip ref) - k + 1 ->
  scan_ok P ref s -> scan_ok P ref (build ref key k size gap s i).
Proof.
  intros Hi Hs. pose proof (len_strip ref) as Hlen.
  assert (Hopen : scan_ok P ref (mkScan (i + k - 1) (i + 1) (regions s))).
  { split; [right; simpl; lia | apply Hs]. }
  unfold build.
  set (s1 := if ((start s <? 0) && (end_ s <? 0))%bool
             then mkScan (i + k - 1) (i + 1) (regions s) else s).
  assert (Hs1 : scan_ok P ref s1) by (subst s1; destruct (_ && _)%bool; assumption).
  clearbody s1.
  destruct ((0 <=? start s1) && (0 <=? end_ s1))%bool eqn:E; [|exact Hs1].
  apply andb_true_iff in E as [E1 E2].
  apply Z.leb_le in E1. apply Z.leb_le in E2.
  destruct (i - (end_ s1 + 1) <=? gap).
  - split; [right; simpl; lia | apply Hs1].
  - split; [right; simpl; lia|]. simpl.
    apply close_ok; [exact Hs1|]. intros H. apply Z.leb_le in H. exact H.
Qed.

Lemma step_ok (s : scan) (i : Z) :
  0 <= i < PyStr.len (PyStr.strip ref) - k + 1 ->
  scan_ok P ref s -> scan_ok P ref (step rc ref key k inmers exmers size gap s i).
Proof.
  intros Hi Hs. unfold step.
  destruct (_ || _)%bool.
  - split; [left; simpl; lia|]. simpl.
    apply close_ok; [exact Hs|]. intros H. apply Z.leb_le in H. exact H.
  - destruct (_ || _)%bool; [apply build_ok; assumption | exact Hs].
Qed.

Lemma fold_step_ok (l : list Z) (s : scan) :
  (forall i, In i l -> 0 <= i < PyStr.len (PyStr.strip ref) - k + 1) ->
  scan_ok P ref s ->
  scan_ok P ref (fold_left (step rc ref key k inmers exmers size gap) l s).
Proof.
  revert s. induction l as [|i l IH]; intros s Hl Hs; simpl; [exact Hs|].
  apply IH.
  - intros j Hj. apply Hl. now right.
  - apply step_ok; [apply Hl; now left | exact Hs].
Qed.

Lemma scanReference_ok (rs : list Region) :
  Forall P rs ->
  Forall P (scanReference rc ref key k inmers exmers size gap rs).
Proof.
  intros Hrs. unfold scanReference, scanWindows.
  apply close_ok.
  - apply fold_step_ok.
    + intros i Hi. apply in_range in Hi. exact Hi.
    + split; [left; simpl; lia | exact Hrs].
  - intros H. apply andb_true_iff in H as [_ H]. apply Z.leb_le in H. exact H.
Qed.

End ScannerFacts.

(** ** The regions of a run *)

(** What [extract] does when it returns. *)
Lemma extract_OK rc references k inmers exmers size gap outputFile regions out :
  extract rc references k inmers exmers size gap outputFile = OK (regions, out) ->
  exists refs inm exm file,
    references = Some refs /\ inmers = Some inm /\ exmers = Some exm /\
    outputFile = Some file /\
    1 <= dlen refs /\ 1 <= k /\ 1 <= dlen inm /\ 1 <= size /\ 1 <= gap /\
    regions = scanReferences rc refs k inm exm size gap /\
    out = writeSignatures 0 regions file.
Proof.
  unfold extract. intros H.
  destruct references as [refs|]; [|discriminate].
  destruct (Z.ltb_spec (dlen refs) 1); [discriminate|].
  destruct (Z.ltb_spec k 1); [discriminate|].
  destruct inmers as [inm|]; [|discriminate].
  destruct (Z.ltb_spec (dlen inm) 1); [discriminate|].
  destruct exmers as [exm|]; [|discriminate].
  destruct (Z.ltb_spec size 1); [discriminate|].
  destruct (Z.ltb_spec gap 1); [discriminate|].
  destruct outputFile as [file|]; [|discriminate].
  injection H as <- <-.
  exists refs, inm, exm, file. repeat split; (reflexivity || lia).
Qed.

Lemma scanReferences_emitted rc (references : gmap string string) k
    (inmers exmers : gmap string Z) size gap :
  1 <= k -> 1 <= size ->
  Forall (emitted_from references size)
         (scanReferences rc references k inmers exmers size gap).
Proof.
  intros Hk Hsize. unfold scanReferences.
  assert (Hl : forall kr, In kr (map_to_list references) ->
                          references !! fst kr = Some (snd kr)).
  { intros [key ref] Hin. apply elem_of_map_to_list, list_elem_of_In, Hin. }
  assert (Hnil : Forall (emitted_from references size) []) by constructor.
  revert Hl Hnil. generalize (@nil Region) as rs.
  induction (map_to_list references) as [|[key ref] l IH]; intros rs Hl Hrs;
    simpl; [exact Hrs|].
  apply IH; [intros kr Hkr; apply Hl; now right|].
  apply scanReference_ok; try assumption.
  intros r [Hkey (e & H0 & He & Hsz & Hseq)].
  exists ref, e. rewrite Hkey. repeat split; try assumption.
  apply (Hl (key, ref)). now left.
Qed.

Lemma extract_emitted rc references k inmers exmers size gap outputFile
    regions out :
  extract rc (Some references) k inmers exmers size gap outputFile
    = OK (regions, out) ->
  Forall (emitted_from references size) regions.
Proof.
  intros H. apply extract_OK in H
    as (refs & inm & exm & file & Hr & _ & _ & _ & _ & Hk & _ & Hs & _ & -> & _).
  injection Hr as <-. apply scanReferences_emitted; assumption.
Qed.

(** C2.  Every region a run of [extract] emits spans at least [size]
    characters: it is the slice of its reference from its position to an
    end [e], its length is [e - position], and [size <= e - position];
    this holds for each of the places a region is closed (exclusion hit,
    over-large gap, end of the sequence). *)
Theorem extract_min_region_size rc (references : gmap string string) k
    inmers exmers size gap outputFile regions out :
  extract rc (Some references) k inmers exmers size gap outputFile
    = OK (regions, out) ->
  forall r, In r regions ->
  exists ref e,
    references !! reference r = Some ref /\
    sequence r = PyStr.slice ref (position r) e /\
    PyStr.len (sequence r) = e - position r /\
    size <= e - position r.
Proof.
  intros H r Hr.
  pose proof (extract_OK _ _ _ _ _ _ _ _ _ _ H)
    as (_ & _ & _ & _ & _ & _ & _ & _ & _ & _ & _ & Hsize & _).
  apply extract_emitted in H. rewrite List.Forall_forall in H.
  destruct (H r Hr) as (ref & e & Href & H0 & He & Hsz & Hseq).
  exists ref, e. repeat split; try assumption.
  rewrite Hseq. apply len_slice; lia.
Qed.

(** C10.  Every region a run of [extract] emits is consistent: its
    sequence is the slice of the reference it names, from its position,
    of its own length. *)
Theorem extract_region_consistent rc (references : gmap string string) k
    inmers exmers size gap outputFile regions out :
  extract rc (Some references) k inmers exmers size gap outputFile
    = OK (regions, out) ->
  forall r, In r regions ->
  exists ref,
    references !! reference r = Some ref /\
    sequence r =
      PyStr.slice ref (position r) (position r + PyStr.len (sequence r)).
Proof.
  intros H r Hr.
  pose proof (extract_OK _ _ _ _ _ _ _ _ _ _ H)
    as (_ & _ & _ & _ & _ & _ & _ & _ & _ & _ & _ & Hsize & _).
  apply extract_emitted in H. rewrite List.Forall_forall in H.
  destruct (H r Hr) as (ref & e & Href & H0 & He & Hsz & Hseq).
  exists ref. split; [exact Href|].
  rewrite Hseq at 2. rewrite len_slice by lia.
  rewrite Hseq. f_equal. lia.
Qed.

Lemma extract_min_region_size_witness :
  extract reverseComplement (Some scenario_references) 2
          (Some pair_inmers) (Some pair_exmers) 1 1 (Some [])
    = OK ([mkRegion "AAA" "ref" 1], [mkSignature 0 0%R 0%R 0%R "AAA" "ref" 1]) /\
  exists ref e,
    scenario_references !! "ref" = Some ref /\
    "AAA" = PyStr.slice ref 1 e /\
    PyStr.len "AAA" = e - 1 /\
    1 <= e - 1.
Proof.
  assert (H : extract reverseComplement (Some scenario_references) 2
                (Some pair_inmers) (Some pair_exmers) 1 1 (Some [])
              = OK ([mkRegion "AAA" "ref" 1],
                    [mkSignature 0 0%R 0%R 0%R "AAA" "ref" 1]))
    by (vm_compute; reflexivity).
  split; [exact H|].
  apply (extract_min_region_size _ _ _ _ _ _ _ _ _ _ H (mkRegion "AAA" "ref" 1)).
  simpl. left. reflexivity.
Defined.

Lemma extract_region_consistent_witness :
  extract reverseComplement (Some scenario_references) 1
          (Some {[ "A" := 1 ]}) (Some ∅) 3 1 (Some [])
    = OK ([mkRegion "AAAAA" "ref" 0], [mkSignature 0 0%R 0%R 0%R "AAAAA" "ref" 0]) /\
  exists ref,
    scenario_references !! "ref" = Some ref /\
    "AAAAA" = PyStr.slice ref 0 (0 + PyStr.len "AAAAA").
Proof.
  assert (H : extract reverseComplement (Some scenario_references) 1
                (Some {[ "A" := 1 ]}) (Some ∅) 3 1 (Some [])
              = OK ([mkRegion "AAAAA" "ref" 0],
                    [mkSignature 0 0%R 0%R 0%R "AAAAA" "ref" 0]))
    by (vm_compute; reflexivity).
  split; [exact H|].
  apply (extract_region_consistent _ _ _ _ _ _ _ _ _ _ H
           (mkRegion "AAAAA" "ref" 0)).
  simpl. left. reflexivity.
Defined.

(** ** The scenario of the specification *)

(** The scan of "AAAAACCCCC" with k = 5: the window at 0 opens a chain
    whose start is the last index of the k-mer and whose end is one past
    its first index; no later window touches it. *)
Lemma scenario_scan :
  scanWindows reverseComplement "AAAAACCCCC" "ref" 5 scenario_inmers ∅ 1 1 []
    = mkScan 4 1 [].
Proof. vm_compute. reflexivity. Qed.

(** C1, as the code behaves.  On the scenario [extract] emits no region
    and writes nothing: the chain of the matching window has span
    1 - 4 = -3, below the minimum region size, so it is dropped at the end
    of the sequence; the "CCCCC"-containing windows emit nothing either. *)
Theorem scenario_no_region (file : list Signature) :
  extract reverseComplement (Some scenario_references) 5
          (Some scenario_inmers) (Some ∅) 1 1 (Some file)
    = OK ([], file).
Proof. vm_compute. reflexivity. Qed.

(** C1, as stated, fails: the run does not emit exactly one region. *)
Lemma scenario_not_one_region :
  ~ exists r out,
      extract reverseComplement (Some scenario_references) 5
              (Some scenario_inmers) (Some ∅) 1 1 (Some [])
        = OK ([r], out).
Proof.
  intros (r & out & H). vm_compute in H. discriminate H.
Qed.

(** ** Exclusion precedence *)

(** C3.  At a window whose k-mer or reverse complement is in the exclusion
    dictionary, whatever the inclusion dictionary holds, the loop body
    closes the chain: the new state has no open chain ([start = end = -1]),
    and the region of the old chain is appended exactly when its span
    meets the minimum size. *)
Theorem exclusion_precedence rc ref key k (inmers exmers : gmap string Z)
    size gap (s : scan) (i : Z) :
  is_Some (exmers !! PyStr.slice ref i (i + k)) \/
  is_Some (exmers !! rc (PyStr.slice ref i (i + k))) ->
  step rc ref key k inmers exmers size gap s i =
    mkScan (-1) (-1)
      (if size <=? end_ s - start s
       then regions s ++
            [mkRegion (PyStr.slice ref (start s) (end_ s)) key (start s)]
       else regions s).
Proof.
  intros H. unfold step, close, mem.
  replace (bool_decide _ || bool_decide _)%bool with true; [reflexivity|].
  symmetry. apply orb_true_iff.
  destruct H as [H|H]; [left|right]; apply bool_decide_eq_true_2; exact H.
Qed.

Lemma exclusion_precedence_witness :
  (is_Some (pair_exmers !! PyStr.slice "AAAAACCCCC" 5 (5 + 2)) \/
   is_Some (pair_exmers !! reverseComplement (PyStr.slice "AAAAACCCCC" 5 (5 + 2)))) /\
  is_Some (pair_inmers !! PyStr.slice "AAAAACCCCC" 5 (5 + 2)) /\
  step reverseComplement "AAAAACCCCC" "ref" 2 pair_inmers pair_exmers 1 1
       (mkScan 1 4 []) 5
    = mkScan (-1) (-1) [mkRegion "AAA" "ref" 1].
Proof.
  assert (H : is_Some (pair_exmers !! PyStr.slice "AAAAACCCCC" 5 (5 + 2)))
    by (exists 1; vm_compute; reflexivity).
  split; [left; exact H|].
  split; [exists 2; vm_compute; reflexivity|].
  exact (exclusion_precedence reverseComplement "AAAAACCCCC" "ref" 2
           pair_inmers pair_exmers 1 1 (mkScan 1 4 []) 5 (or_introl H)).
Defined.

(** ** Float operations *)

Section FloatFacts.

Local Open Scope R_scope.

Lemma ltb_true (x y : R) : PyFloat.ltb x y = true <-> x < y.
Proof. unfold PyFloat.ltb. destruct (Rlt_dec x y); split; (easy || lra). Qed.

Lemma ltb_false (x y : R) : PyFloat.ltb x y = false <-> y <= x.
Proof. unfold PyFloat.ltb. destruct (Rlt_dec x y); split; (easy || lra). Qed.

Lemma leb_true (x y : R) : PyFloat.leb x y = true <-> x <= y.
Proof. unfold PyFloat.leb. destruct (Rle_dec x y); split; (easy || lra). Qed.

Lemma leb_false (x y : R) : PyFloat.leb x y = false <-> y < x.
Proof. unfold PyFloat.leb. destruct (Rle_dec x y); split; (easy || lra). Qed.

Lemma div_OK (x y : R) : y <> 0 -> PyFloat.div x y = OK (x / y).
Proof.
  intros Hy. unfold PyFloat.div, PyFloat.eqb.
  destruct (Req_dec_T y 0); [contradiction | reflexivity].
Qed.

Lemma div_zero (x : R) : PyFloat.div x 0 = Raise ZeroDivisionError.
Proof.
  unfold PyFloat.div, PyFloat.eqb.
  destruct (Req_dec_T 0 0); [reflexivity | contradiction].
Qed.

Lemma sqrt_OK (x : R) : 0 <= x -> PyFloat.sqrt x = OK (sqrt x).
Proof.
  intros Hx. unfold PyFloat.sqrt.
  destruct (PyFloat.ltb x 0) eqn:E; [apply ltb_true in E; lra | reflexivity].
Qed.

Lemma sqrt_negative (x : R) : x < 0 -> PyFloat.sqrt x = Raise ValueError.
Proof.
  intros Hx. unfold PyFloat.sqrt.
  destruct (PyFloat.ltb x 0) eqn:E; [reflexivity | apply ltb_false in E; lra].
Qed.

Lemma pow_OK (x : R) (n : Z) :
  (0 <= n)%Z -> PyFloat.pow x n = OK (x ^ Z.to_nat n).
Proof.
  intros Hn. unfold PyFloat.pow.
  destruct (Z.ltb_spec n 0); [lia|].
  rewrite andb_false_r. f_equal.
  rewrite <- (Z2Nat.id n) at 1 by exact Hn.
  symmetry. apply pow_powerRZ.
Qed.

(** In range, none of the guards fires. *)
Lemma range_guard (x : R) :
  0 <= x <= 1 -> (PyFloat.ltb x 0 || PyFloat.ltb 1 x)%bool = false.
Proof.
  intros [H0 H1]. apply orb_false_iff.
  split; apply ltb_false; assumption.
Qed.

Lemma range_guard_out (x : R) :
  x < 0 \/ 1 < x -> (PyFloat.ltb x 0 || PyFloat.ltb 1 x)%bool = true.
Proof.
  intros H. apply orb_true_iff.
  destruct H; [left | right]; apply ltb_true; assumption.
Qed.

Lemma open_guard (c : R) :
  0 < c < 1 -> (PyFloat.leb c 0 || PyFloat.leb 1 c)%bool = false.
Proof.
  intros [H0 H1]. apply orb_false_iff.
  split; apply leb_false; assumption.
Qed.

Lemma open_guard_out (c : R) :
  c <= 0 \/ 1 <= c -> (PyFloat.leb c 0 || PyFloat.leb 1 c)%bool = true.
Proof.
  intros H. apply orb_true_iff.
  destruct H; [left | right]; apply leb_true; assumption.
Qed.

End FloatFacts.

(** ** The match probabilities *)

Section ProbFacts.

Local Open Scope R_scope.

Lemma div_le_1 (n d : R) : 0 < d -> n <= d -> n / d <= 1.
Proof.
  intros Hd Hn. apply (Rmult_le_reg_r d); [exact Hd|].
  unfold Rdiv. rewrite Rmult_assoc, Rinv_l by lra. lra.
Qed.

Lemma calculateProbHBMM_OK (GC : R) :
  0 <= GC <= 1 ->
  calculateProbHBMM GC = OK (Spec.probHomologousBaseMutateMatch GC).
Proof.
  intros HGC. unfold calculateProbHBMM.
  rewrite range_guard by exact HGC.
  rewrite !div_OK by lra. simpl.
  rewrite !pow_OK by lia. simpl.
  reflexivity.
Qed.

Lemma probHBMM_range (GC : R) :
  0 <= GC <= 1 -> 0 <= Spec.probHomologousBaseMutateMatch GC <= 1.
Proof.
  intros HGC. unfold Spec.probHomologousBaseMutateMatch.
  set (a := (2 * (GC / (GC + 1)) ^ 2 + ((1 - GC) / (GC + 1)) ^ 2)).
  set (b := (2 * ((1 - GC) / (2 - GC)) ^ 2 + (GC / (2 - GC)) ^ 2)).
  assert (Ha : 0 <= a <= 1).
  { subst a. split.
    - pose proof (pow2_ge_0 (GC / (GC + 1))).
      pose proof (pow2_ge_0 ((1 - GC) / (GC + 1))). lra.
    - replace (2 * (GC / (GC + 1)) ^ 2 + ((1 - GC) / (GC + 1)) ^ 2)
        with ((3 * GC * GC - 2 * GC + 1) / ((GC + 1) * (GC + 1)))
        by (field; lra).
      apply div_le_1; nra. }
  assert (Hb : 0 <= b <= 1).
  { subst b. split.
    - pose proof (pow2_ge_0 (GC / (2 - GC))).
      pose proof (pow2_ge_0 ((1 - GC) / (2 - GC))). lra.
    - replace (2 * ((1 - GC) / (2 - GC)) ^ 2 + (GC / (2 - GC)) ^ 2)
        with ((3 * GC * GC - 4 * GC + 2) / ((2 - GC) * (2 - GC)))
        by (field; lra).
      apply div_le_1; nra. }
  clearbody a b. nra.
Qed.

Lemma calculateProbHBM_OK (M GC : R) :
  0 <= M <= 1 -> 0 <= GC <= 1 ->
  calculateProbHBM M GC = OK (Spec.probHomologousBaseMatch M GC).
Proof.
  intros HM HGC. unfold calculateProbHBM.
  rewrite !range_guard by assumption.
  rewrite calculateProbHBMM_OK by exact HGC. simpl.
  unfold Spec.probHomologousBaseMatch. f_equal. ring.
Qed.

Lemma probHBM_range (M GC : R) :
  0 <= M <= 1 -> 0 <= GC <= 1 ->
  0 <= Spec.probHomologousBaseMatch M GC <= 1.
Proof.
  intros HM HGC. unfold Spec.probHomologousBaseMatch.
  pose proof (probHBMM_range GC HGC) as Hf.
  set (f := Spec.probHomologousBaseMutateMatch GC) in *. clearbody f.
  nra.
Qed.

Lemma calculateProbHKM_OK (M GC : R) (k : Z) :
  0 <= M <= 1 -> 0 <= GC <= 1 -> (1 <= k)%Z ->
  calculateProbHKM M GC k = OK (Spec.probHomologousKmerMatch M GC k).
Proof.
  intros HM HGC Hk. unfold calculateProbHKM.
  rewrite !range_guard by assumption.
  destruct (Z.ltb_spec k 1); [lia|].
  rewrite calculateProbHBM_OK by assumption. simpl.
  rewrite pow_OK by lia. reflexivity.
Qed.

Lemma probHKM_range (M GC : R) (k : Z) :
  0 <= M <= 1 -> 0 <= GC <= 1 ->
  0 <= Spec.probHomologousKmerMatch M GC k <= 1.
Proof.
  intros HM HGC. unfold Spec.probHomologousKmerMatch.
  pose proof (probHBM_range M GC HM HGC) as [H0 H1].
  split; [apply pow_le; exact H0|].
  rewrite <- (pow1 (Z.to_nat k)). apply pow_incr. lra.
Qed.

End ProbFacts.

(** ** The gap size *)

Section GapFacts.

Local Open Scope R_scope.

(** With no mutation every base matches, [q = 0], and the division of the
    mean raises. *)
Lemma estimateGapSize_no_mutation (GC : R) (k : Z) (c : R) :
  0 <= GC <= 1 -> (1 <= k)%Z -> 0 < c < 1 ->
  estimateGapSize 0 GC k c = Raise ZeroDivisionError.
Proof.
  intros HGC Hk Hc. unfold estimateGapSize, gapMoments.
  rewrite !range_guard by (assumption || lra).
  destruct (Z.ltb_spec k 1); [lia|].
  rewrite open_guard by exact Hc.
  rewrite calculateProbHBM_OK by (assumption || lra). simpl.
  assert (Hp : Spec.probHomologousBaseMatch 0 GC = 1).
  { unfold Spec.probHomologousBaseMatch. ring. }
  rewrite Hp. rewrite !pow_OK by lia. simpl.
  replace ((1 - 1) * 1 ^ Z.to_nat k) with 0 by ring.
  rewrite div_zero. reflexivity.
Qed.

End GapFacts.

(** ** The standard normal distribution *)

Section NormalFacts.

Local Open Scope R_scope.

Lemma sqrt_2PI_gt_2 : 2 < sqrt (2 * PI).
Proof.
  pose proof PI2_3_2 as HPI.
  replace 2 with (sqrt (2 * 2)) at 1 by (apply sqrt_square; lra).
  apply sqrt_lt_1; lra.
Qed.

Lemma pdf_pos (x : R) : 0 < Normal.pdf x.
Proof.
  unfold Normal.pdf. apply Rdiv_lt_0_compat; [apply exp_pos|].
  pose proof sqrt_2PI_gt_2. lra.
Qed.

Lemma exp_le (x y : R) : x <= y -> exp x <= exp y.
Proof.
  intros [H| ->]; [left; apply exp_increasing; exact H | right; reflexivity].
Qed.

(** The density is largest at 0, where it is below 1/2. *)
Lemma pdf_lt_half (x : R) : Normal.pdf x < 1 / 2.
Proof.
  unfold Normal.pdf. pose proof sqrt_2PI_gt_2 as Hs.
  assert (He : exp (- (x * x) / 2) <= 1).
  { rewrite <- exp_0. apply exp_le. nra. }
  pose proof (exp_pos (- (x * x) / 2)) as Hp.
  apply (Rmult_lt_reg_r (sqrt (2 * PI))); [lra|].
  unfold Rdiv at 1. rewrite Rmult_assoc, Rinv_l by lra. nra.
Qed.

(** The density decreases with the distance from 0. *)
Lemma pdf_lower (m x : R) : - m <= x <= m -> Normal.pdf m <= Normal.pdf x.
Proof.
  intros Hx. unfold Normal.pdf. pose proof sqrt_2PI_gt_2 as Hs.
  apply Rmult_le_compat_r; [left; apply Rinv_0_lt_compat; lra|].
  apply exp_le. nra.
Qed.

Lemma cdf_diff (a b : R) :
  Normal.cdf b - Normal.cdf a = RiemannInt (Normal.pdf_integrable a b).
Proof.
  unfold Normal.cdf.
  rewrite <- (RiemannInt_P26 (Normal.pdf_integrable 0 a)
                (Normal.pdf_integrable a b) (Normal.pdf_integrable 0 b)).
  ring.
Qed.

Lemma cdf_increasing (a b : R) : a < b -> Normal.cdf a < Normal.cdf b.
Proof.
  intros Hab. apply Rlt_0_minus. rewrite cdf_diff.
  set (m := Rabs a + Rabs b).
  assert (Hm : forall x, a < x < b -> - m <= x <= m).
  { intros x Hx. subst m. unfold Rabs.
    destruct (Rcase_abs a), (Rcase_abs b); lra. }
  destruct (@RiemannInt_const_bound Normal.pdf a b (Normal.pdf m) (1 / 2)
              (Normal.pdf_integrable a b)) as [Hlow _].
  - lra.
  - intros x Hx. split; [apply pdf_lower, Hm, Hx | left; apply pdf_lt_half].
  - pose proof (pdf_pos m). nra.
Qed.

Lemma cdf_injective (x y : R) : Normal.cdf x = Normal.cdf y -> x = y.
Proof.
  intros H. destruct (Rtotal_order x y) as [Hlt|[Heq|Hgt]]; [|exact Heq|].
  - apply cdf_increasing in Hlt. lra.
  - apply cdf_increasing in Hgt. lra.
Qed.

(** [ppf] inverts [cdf]. *)
Lemma ppf_cdf (x : R) : Normal.ppf (Normal.cdf x) = x.
Proof.
  apply cdf_injective. unfold Normal.ppf.
  apply (epsilon_spec (inhabits 0) (fun y => Normal.cdf y = Normal.cdf x)).
  exists x. reflexivity.
Qed.

Lemma cdf_0 : Normal.cdf 0 = 1 / 2.
Proof. unfold Normal.cdf. rewrite RiemannInt_P9. ring. Qed.

Lemma ppf_half : Normal.ppf (1 / 2) = 0.
Proof. rewrite <- cdf_0. apply ppf_cdf. Qed.

Lemma cdf_1_range : 1 / 2 < Normal.cdf 1 < 1.
Proof.
  split.
  - rewrite <- cdf_0. apply cdf_increasing. lra.
  - unfold Normal.cdf.
    destruct (@RiemannInt_const_bound Normal.pdf 0 1 0 (Normal.pdf 0)
                (Normal.pdf_integrable 0 1)) as [_ Hup].
    + lra.
    + intros x Hx. split; [left; apply pdf_pos|].
      apply pdf_lower. lra.
    + pose proof (pdf_lt_half 0). lra.
Qed.

End NormalFacts.

(** ** The inclusion hits *)

Section InclusionFacts.

Local Open Scope R_scope.

Lemma estimateInclusionHits_OK (N : Z) (M GC : R) (k : Z) (c : R) :
  0 <= M <= 1 -> 0 <= GC <= 1 -> (1 <= k)%Z -> 0 < c < 1 -> (1 <= N)%Z ->
  estimateInclusionHits N M GC k c =
    OK (Rmax 0 (IZR (Zfloor (hits (Spec.probHomologousKmerMatch M GC k)
                                  (Normal.ppf c) (IZR N - 1))))).
Proof.
  intros HM HGC Hk Hc HN. unfold estimateInclusionHits.
  rewrite !range_guard by assumption.
  destruct (Z.ltb_spec k 1); [lia|].
  rewrite open_guard by exact Hc.
  rewrite calculateProbHKM_OK by assumption. cbn [rbind].
  pose proof (probHKM_range M GC k HM HGC) as Hp.
  set (p := Spec.probHomologousKmerMatch M GC k) in *. clearbody p.
  apply IZR_le in HN.
  rewrite sqrt_OK; [reflexivity|].
  apply Rmult_le_pos; [apply Rmult_le_pos|]; lra.
Qed.

(** With no inclusion genome the variance is negative and [math.sqrt]
    raises, unless the match probability is 0 or 1. *)
Lemma estimateInclusionHits_none (M GC : R) (k : Z) (c : R) :
  0 <= M <= 1 -> 0 <= GC <= 1 -> (1 <= k)%Z -> 0 < c < 1 ->
  0 < Spec.probHomologousKmerMatch M GC k < 1 ->
  estimateInclusionHits 0 M GC k c = Raise ValueError.
Proof.
  intros HM HGC Hk Hc Hp. unfold estimateInclusionHits.
  rewrite !range_guard by assumption.
  destruct (Z.ltb_spec k 1); [lia|].
  rewrite open_guard by exact Hc.
  rewrite calculateProbHKM_OK by assumption. cbn [rbind].
  set (p := Spec.probHomologousKmerMatch M GC k) in *. clearbody p.
  rewrite sqrt_negative; [reflexivity|].
  assert (0 < p * (1 - p)) by (apply Rmult_lt_0_compat; lra).
  lra.
Qed.


End InclusionFacts.

Section InclusionClaims.

Local Open Scope R_scope.



End InclusionClaims.

Section InclusionExamples.

Local Open Scope R_scope.

Lemma probHKM_half : Spec.probHomologousKmerMatch (1 / 2) (1 / 2) 1 = 1 / 3.
Proof.
  unfold Spec.probHomologousKmerMatch, Spec.probHomologousBaseMatch,
    Spec.probHomologousBaseMutateMatch.
  simpl. field.
Qed.

Lemma estimateInclusionHits_half (N : Z) (c : R) :
  (1 <= N)%Z -> 0 < c < 1 ->
  estimateInclusionHits N (1 / 2) (1 / 2) 1 c =
    OK (Rmax 0 (IZR (Zfloor (hits (1 / 3) (Normal.ppf c) (IZR N - 1))))).
Proof.
  intros HN Hc.
  rewrite estimateInclusionHits_OK by (lra || lia).
  rewrite probHKM_half. reflexivity.
Qed.

Lemma hits_first (p z : R) : hits p z (1 - 1) = 1.
Proof.
  unfold hits. replace ((1 - 1) * p * (1 - p)) with 0 by ring.
  rewrite sqrt_0. ring.
Qed.



(** At confidence 1/2 the estimate is 1 for one inclusion genome and for
    two. *)
Lemma estimateInclusionHits_even :
  estimateInclusionHits 1 (1 / 2) (1 / 2) 1 (1 / 2) = OK 1 /\
  estimateInclusionHits 2 (1 / 2) (1 / 2) 1 (1 / 2) = OK 1.
Proof.
  split.
  - rewrite estimateInclusionHits_half by (lra || lia).
    rewrite hits_first. rewrite (Zfloor_eq 1) by lra.
    rewrite Rmax_right by lra. reflexivity.
  - rewrite estimateInclusionHits_half by (lra || lia).
    rewrite ppf_half. unfold hits. rewrite (Zfloor_eq 1) by lra.
    rewrite Rmax_right by lra. reflexivity.
Qed.


End InclusionExamples.

(** ** Validation of the arguments *)

Section Validation.

Local Open Scope R_scope.

(** Splits on the guards of a function in order; a guard that fires ends
    the goal, the others are kept as inequalities. *)
Ltac guards :=
  repeat match goal with
  | |- rejects (if ?b then Raise _ else _) =>
      let E := fresh "E" in
      destruct b eqn:E; [eexists; reflexivity|]
  end;
  repeat match goal with
  | E : (_ || _)%bool = false |- _ =>
      apply orb_false_iff in E; destruct E
  | E : PyFloat.ltb _ _ = false |- _ => apply ltb_false in E
  | E : PyFloat.leb _ _ = false |- _ => apply leb_false in E
  | E : (_ <? _)%Z = false |- _ => apply Z.ltb_ge in E
  end.

Lemma calculateProbHBMM_rejects (GC : R) :
  GC < 0 \/ 1 < GC -> rejects (calculateProbHBMM GC).
Proof. intros H. unfold calculateProbHBMM. guards. lra. Qed.

Lemma calculateProbHBM_rejects (M GC : R) :
  M < 0 \/ 1 < M \/ GC < 0 \/ 1 < GC -> rejects (calculateProbHBM M GC).
Proof. intros H. unfold calculateProbHBM. guards. lra. Qed.

Lemma calculateProbHKM_rejects (M GC : R) (k : Z) :
  M < 0 \/ 1 < M \/ GC < 0 \/ 1 < GC \/ (k < 1)%Z ->
  rejects (calculateProbHKM M GC k).
Proof.
  intros H. unfold calculateProbHKM. guards.
  destruct H as [H|[H|[H|[H|H]]]]; (lra || lia).
Qed.

Lemma estimateGapSize_rejects (M GC : R) (k : Z) (c : R) :
  M < 0 \/ 1 < M \/ GC < 0 \/ 1 < GC \/ (k < 1)%Z \/ c <= 0 \/ 1 <= c ->
  rejects (estimateGapSize M GC k c).
Proof.
  intros H. unfold estimateGapSize. guards.
  destruct H as [H|[H|[H|[H|[H|H]]]]]; (lra || lia).
Qed.

Lemma estimateInclusionHits_rejects (N : Z) (M GC : R) (k : Z) (c : R) :
  M < 0 \/ 1 < M \/ GC < 0 \/ 1 < GC \/ (k < 1)%Z \/ c <= 0 \/ 1 <= c ->
  rejects (estimateInclusionHits N M GC k c).
Proof.
  intros H. unfold estimateInclusionHits. guards.
  destruct H as [H|[H|[H|[H|[H|H]]]]]; (lra || lia).
Qed.

(** C6.  [estimateExclusionHits] returns 1 whatever its arguments. *)
Theorem estimateExclusionHits_constant (totalExclusion : Z) (rate : R)
    (kmerSize : Z) :
  estimateExclusionHits totalExclusion rate kmerSize = OK 1.
Proof. reflexivity. Qed.

(** C5, as the code behaves.  For arguments that are numbers (a float
    that is not a number is not a real, and is outside this statement),
    the five functions [calculateProbHBMM], [calculateProbHBM],
    [calculateProbHKM], [estimateGapSize] and [estimateInclusionHits]
    raise a [RuntimeError] when one of their probabilities is negative or
    above 1, the k-mer size is below 1 or the confidence is at most 0 or at
    least 1; [estimateExclusionHits] checks nothing and returns 1. *)
Theorem estimators_validate (N : Z) (M GC : R) (k : Z) (c : R) :
  (GC < 0 \/ 1 < GC -> rejects (calculateProbHBMM GC)) /\
  (M < 0 \/ 1 < M \/ GC < 0 \/ 1 < GC -> rejects (calculateProbHBM M GC)) /\
  (M < 0 \/ 1 < M \/ GC < 0 \/ 1 < GC \/ (k < 1)%Z ->
   rejects (calculateProbHKM M GC k)) /\
  (M < 0 \/ 1 < M \/ GC < 0 \/ 1 < GC \/ (k < 1)%Z \/ c <= 0 \/ 1 <= c ->
   rejects (estimateGapSize M GC k c) /\
   rejects (estimateInclusionHits N M GC k c)) /\
  estimateExclusionHits N M k = OK 1.
Proof.
  split; [apply calculateProbHBMM_rejects|].
  split; [apply calculateProbHBM_rejects|].
  split; [apply calculateProbHKM_rejects|].
  split; [|reflexivity].
  intros H. split.
  - apply estimateGapSize_rejects, H.
  - apply estimateInclusionHits_rejects, H.
Qed.

Lemma estimators_validate_witness :
  rejects (calculateProbHBMM 2) /\
  rejects (calculateProbHBM (-1) 2) /\
  rejects (calculateProbHKM (-1) 2 0) /\
  rejects (estimateGapSize (-1) 2 0 1) /\
  rejects (estimateInclusionHits 5 (-1) 2 0 1).
Proof.
  destruct (estimators_validate 5 (-1) 2 0 1) as (H1 & H2 & H3 & H4 & _).
  split; [apply H1; right; lra|].
  split; [apply H2; left; lra|].
  split; [apply H3; left; lra|].
  apply H4. left. lra.
Defined.

(** C5, as stated, fails: [estimateExclusionHits] returns a value for a
    negative total, a rate above 1 and a k-mer size below 1. *)
Lemma estimateExclusionHits_unchecked :
  estimateExclusionHits (-1) 2 0 = OK 1 /\
  ~ exists e, estimateExclusionHits (-1) 2 0 = Raise e.
Proof.
  split; [reflexivity|]. intros [e H]. discriminate H.
Qed.

(** [estimateSignatureSize] has no check either. *)
Lemma estimateSignatureSize_unchecked : estimateSignatureSize 0 = OK 0%Z.
Proof.
  unfold estimateSignatureSize, PyFloat.to_int.
  replace (4 * 0) with 0 by ring.
  destruct (PyFloat.leb 0 0) eqn:E; [|apply leb_false in E; lra].
  f_equal. apply Zfloor_eq. simpl. lra.
Qed.

End Validation.

(** ** The k-mer dictionaries *)

Section KMerFacts.

Variables inhits exhits : R.

Lemma buildKMers_stored (kmerFile : list string)
    (entries : list (string * (Z * Z))) (inmers exmers : gmap string Z) :
  Forall2 (fun line entry => readKMer line = OK entry) kmerFile entries ->
  buildKMers kmerFile inmers exmers inhits exhits =
    OK (stored inhits fst entries inmers, stored exhits snd entries exmers).
Proof.
  intros H. revert inmers exmers.
  induction H as [|line e lines es Hline _ IH]; intros inmers exmers;
    simpl; [reflexivity|].
  rewrite Hline. cbn [rbind]. apply IH.
Qed.

Lemma store_lookup (hits : R) (kmer : string) (count : Z)
    (mers : gmap string Z) (key : string) (n : Z) :
  mers !! kmer = None ->
  store hits kmer count mers !! key = Some n <->
  mers !! key = Some n \/ (key = kmer /\ n = count /\ (hits <= IZR count)%R).
Proof.
  intros Hnone. unfold store.
  destruct (PyFloat.leb hits (IZR count)) eqn:E.
  - apply leb_true in E. destruct (decide (key = kmer)) as [->|Hne].
    + rewrite lookup_insert_eq, Hnone. split.
      * intros [= <-]. right. auto.
      * intros [H|(_ & -> & _)]; [discriminate | reflexivity].
    + rewrite lookup_insert_ne by congruence. split; [auto|].
      intros [H|(H & _)]; [exact H | contradiction].
  - apply leb_false in E. split; [auto|].
    intros [H|(_ & _ & H)]; [exact H | lra].
Qed.

Lemma store_fresh (hits : R) (kmer : string) (count : Z)
    (mers : gmap string Z) (key : string) :
  key <> kmer -> mers !! key = None ->
  store hits kmer count mers !! key = None.
Proof.
  intros Hne Hnone. unfold store.
  destruct (PyFloat.leb hits (IZR count)); [|exact Hnone].
  rewrite lookup_insert_ne by congruence. exact Hnone.
Qed.

Lemma stored_lookup (hits : R) (count : Z * Z -> Z)
    (entries : list (string * (Z * Z))) (mers : gmap string Z)
    (key : string) (n : Z) :
  NoDup (map fst entries) ->
  (forall e, In e entries -> mers !! fst e = None) ->
  stored hits count entries mers !! key = Some n <->
  mers !! key = Some n \/
  exists c, In (key, c) entries /\ n = count c /\ (hits <= IZR (count c))%R.
Proof.
  unfold stored. revert mers.
  induction entries as [|[kmer c] es IH]; intros mers Hnd Hfresh; simpl.
  - split; [auto|]. intros [H|(c & [] & _)]. exact H.
  - apply NoDup_cons in Hnd as [Hnotin Hnd].
    assert (Hkmer : mers !! kmer = None) by (apply (Hfresh (kmer, c)); now left).
    rewrite IH; [|exact Hnd|].
    + rewrite store_lookup by exact Hkmer. split.
      * intros [[H|(-> & -> & H)]|(c' & Hin & H)].
        -- now left.
        -- right. exists c. auto.
        -- right. exists c'. auto.
      * intros [Hm|(c' & [Heq|Hin] & -> & Hle)].
        -- left. now left.
        -- injection Heq as <- <-. left. right. auto.
        -- right. exists c'. auto.
    + intros [kmer' c'] Hin. simpl. apply store_fresh.
      * intros ->. apply Hnotin. apply list_elem_of_In, in_map_iff.
        exists (kmer, c'). auto.
      * apply (Hfresh (kmer', c')). now right.
Qed.

End KMerFacts.

(** C9.  For a k-mer file that lists a count table and empty
    dictionaries, [buildKMers] fills the inclusion dictionary with exactly
    the k-mers whose inclusion count is at least [inhits] and the exclusion
    dictionary with exactly those whose exclusion count is at least
    [exhits], each with its count; a k-mer that meets both thresholds is
    in both. *)
Theorem buildKMers_sets (kmerFile : list string)
    (table : gmap string (Z * Z)) (inhits exhits : R) :
  lists_table kmerFile table ->
  exists inmers exmers : gmap string Z,
    buildKMers kmerFile ∅ ∅ inhits exhits = OK (inmers, exmers) /\
    (forall kmer n, inmers !! kmer = Some n <->
       exists x, table !! kmer = Some (n, x) /\ (inhits <= IZR n)%R) /\
    (forall kmer x, exmers !! kmer = Some x <->
       exists n, table !! kmer = Some (n, x) /\ (exhits <= IZR x)%R) /\
    (forall kmer n x, table !! kmer = Some (n, x) ->
       (inhits <= IZR n)%R -> (exhits <= IZR x)%R ->
       inmers !! kmer = Some n /\ exmers !! kmer = Some x).
Proof.
  intros (entries & Hread & Hnd & ->).
  exists (stored inhits fst entries ∅), (stored exhits snd entries ∅).
  assert (Hin : forall kmer c,
            (list_to_map entries : gmap string (Z * Z)) !! kmer = Some c <->
            In (kmer, c) entries).
  { intros kmer c. rewrite <- list_elem_of_In.
    symmetry. apply elem_of_list_to_map. exact Hnd. }
  assert (Hinc : forall kmer n,
            stored inhits fst entries ∅ !! kmer = Some n <->
            exists x, (list_to_map entries : gmap string (Z * Z)) !! kmer
                      = Some (n, x) /\ (inhits <= IZR n)%R).
  { intros kmer n. rewrite stored_lookup; [|exact Hnd|intros; apply lookup_empty].
    rewrite lookup_empty. split.
    - intros [H|([n' x] & Hc & -> & H)]; [discriminate|].
      exists x. split; [apply Hin, Hc | exact H].
    - intros (x & Hc & H). right. exists (n, x).
      split; [apply Hin, Hc | auto]. }
  assert (Hexc : forall kmer x,
            stored exhits snd entries ∅ !! kmer = Some x <->
            exists n, (list_to_map entries : gmap string (Z * Z)) !! kmer
                      = Some (n, x) /\ (exhits <= IZR x)%R).
  { intros kmer x. rewrite stored_lookup; [|exact Hnd|intros; apply lookup_empty].
    rewrite lookup_empty. split.
    - intros [H|([n x'] & Hc & -> & H)]; [discriminate|].
      exists n. split; [apply Hin, Hc | exact H].
    - intros (n & Hc & H). right. exists (n, x).
      split; [apply Hin, Hc | auto]. }
  split; [apply buildKMers_stored, Hread|].
  split; [exact Hinc|]. split; [exact Hexc|].
  intros kmer n x Hc Hi He. split.
  - apply Hinc. exists x. auto.
  - apply Hexc. exists n. auto.
Qed.

Lemma buildKMers_sets_witness :
  lists_table sample_kmerFile sample_table /\
  exists inmers exmers : gmap string Z,
    buildKMers sample_kmerFile ∅ ∅ 2 1 = OK (inmers, exmers) /\
    (forall kmer n, inmers !! kmer = Some n <->
       exists x, sample_table !! kmer = Some (n, x) /\ (2 <= IZR n)%R) /\
    (forall kmer x, exmers !! kmer = Some x <->
       exists n, sample_table !! kmer = Some (n, x) /\ (1 <= IZR x)%R) /\
    (forall kmer n x, sample_table !! kmer = Some (n, x) ->
       (2 <= IZR n)%R -> (1 <= IZR x)%R ->
       inmers !! kmer = Some n /\ exmers !! kmer = Some x).
Proof.
  assert (H : lists_table sample_kmerFile sample_table).
  { exists sample_entries. split; [|split].
    - repeat constructor.
    - apply (bool_decide_unpack _). vm_compute. exact I.
    - reflexivity. }
  split; [exact H|].
  exact (buildKMers_sets sample_kmerFile sample_table 2 1 H).
Defined.

Section VarianceFacts.

Local Open Scope R_scope.

Lemma excess_slope (p : R) (n : nat) :
  0 <= p <= 1 ->
  0 <= (2 * INR n + 1) - (2 * INR n + 3) * p + p ^ n * p * (1 + p).
Proof.
  intros Hp. induction n as [|n IH].
  - simpl. nra.
  - rewrite S_INR. simpl.
    assert (HP : 0 <= p ^ n <= 1).
    { split; [apply pow_le; lra|].
      rewrite <- (pow1 n). apply pow_incr. lra. }
    set (P := p ^ n) in *. clearbody P.
    assert (0 <= (1 - p) * (2 - (1 + p) * (p * P))).
    { apply Rmult_le_pos; [lra|]. nra. }
    nra.
Qed.

Lemma excess_nonneg (p : R) (n : nat) : 0 <= p <= 1 -> 0 <= excess p n.
Proof.
  intros Hp. induction n as [|n IH].
  - unfold excess. simpl. lra.
  - pose proof (excess_slope p n Hp) as Hs.
    unfold excess in *. rewrite S_INR. simpl.
    assert (HP : 0 <= p ^ n <= 1).
    { split; [apply pow_le; lra|].
      rewrite <- (pow1 n). apply pow_incr. lra. }
    set (P := p ^ n) in *. clearbody P.
    set (N := INR n) in *. clearbody N.
    assert (0 <= (1 - p) * P * (2 * N + 1 - (2 * N + 3) * p + P * p * (1 + p))).
    { apply Rmult_le_pos; [apply Rmult_le_pos; lra | exact Hs]. }
    nra.
Qed.

(** In exact arithmetic the variance of the recurrence time is never
    negative where it is defined. *)
Lemma gapVariance_nonneg (p : R) (k : Z) :
  0 <= p <= 1 -> (0 <= k)%Z -> (1 - p) * p ^ Z.to_nat k <> 0 ->
  0 <= Spec.gapVariance p k.
Proof.
  intros Hp Hk Hden. unfold Spec.gapVariance.
  assert (Hq : 1 - p <> 0) by (intros E; apply Hden; rewrite E; ring).
  assert (Hpk : p ^ Z.to_nat k <> 0) by (intros E; apply Hden; rewrite E; ring).
  replace (IZR k) with (INR (Z.to_nat k)) by (rewrite INR_IZR_INZ, Z2Nat.id; auto).
  set (n := Z.to_nat k) in *. clearbody n.
  replace (1 / ((1 - p) * p ^ n) ^ 2 - (2 * INR n + 1) / ((1 - p) * p ^ n)
           - p / (1 - p) ^ 2)
    with (excess p n / (((1 - p) * p ^ n) * ((1 - p) * p ^ n)))
    by (unfold excess; field; auto).
  apply Rmult_le_pos; [apply excess_nonneg, Hp|].
  left. apply Rinv_0_lt_compat.
  assert (0 < ((1 - p) * p ^ n) * ((1 - p) * p ^ n)); [|assumption].
  destruct (Rtotal_order ((1 - p) * p ^ n) 0) as [H|[H|H]]; [|contradiction|];
    nra.
Qed.

End VarianceFacts.

(** ** The steps of the gap size *)

Section GapSteps.

Local Open Scope R_scope.

(** Past its checks [estimateGapSize] is the moments followed by the
    estimate. *)
Lemma estimateGapSize_steps (M GC : R) (k : Z) (c : R) :
  0 <= M <= 1 -> 0 <= GC <= 1 -> (1 <= k)%Z -> 0 < c < 1 ->
  estimateGapSize M GC k c =
    (do moments <- gapMoments (Spec.probHomologousBaseMatch M GC) k;
     gapEstimate (fst moments) (snd moments) c).
Proof.
  intros HM HGC Hk Hc. unfold estimateGapSize.
  rewrite !range_guard by assumption.
  destruct (Z.ltb_spec k 1); [lia|].
  rewrite open_guard by exact Hc.
  rewrite calculateProbHBM_OK by assumption. reflexivity.
Qed.

End GapSteps.

(** * Further properties *)

(** ** The regions are only appended to *)

Section ScanAppend.

Variable rc : string -> string.
Variables (ref key : string) (k : Z) (inmers exmers : gmap string Z)
          (size gap : Z).

Lemma close_prepend (rs : list Region) (guard : bool) (s : scan) :
  close ref key guard (prepend rs s) = (rs ++ close ref key guard s)%list.
Proof.
  unfold close, prepend. simpl. destruct guard; [|reflexivity].
  rewrite <- app_assoc. reflexivity.
Qed.

Lemma build_prepend (rs : list Region) (s : scan) (i : Z) :
  build ref key k size gap (prepend rs s) i =
  prepend rs (build ref key k size gap s i).
Proof.
  destruct s as [st en regs]. unfold build, prepend.
  cbn [start end_ regions].
  destruct ((st <? 0) && (en <? 0))%bool; cbn [start end_ regions].
  - destruct ((0 <=? i + k - 1) && (0 <=? i + 1))%bool; [|reflexivity].
    destruct (i - (i + 1 + 1) <=? gap); [reflexivity|].
    unfold close. cbn [start end_ regions].
    destruct (size <=? _); rewrite <- ?app_assoc; reflexivity.
  - destruct ((0 <=? st) && (0 <=? en))%bool; [|reflexivity].
    destruct (i - (en + 1) <=? gap); [reflexivity|].
    unfold close. cbn [start end_ regions].
    destruct (size <=? _); rewrite <- ?app_assoc; reflexivity.
Qed.

Lemma step_prepend (rs : list Region) (s : scan) (i : Z) :
  step rc ref key k inmers exmers size gap (prepend rs s) i =
  prepend rs (step rc ref key k inmers exmers size gap s i).
Proof.
  unfold step.
  destruct (_ || _)%bool.
  - destruct s as [st en regs]. unfold prepend, close.
    cbn [start end_ regions].
    destruct (size <=? _); rewrite <- ?app_assoc; reflexivity.
  - destruct (_ || _)%bool; [apply build_prepend | reflexivity].
Qed.

Lemma fold_step_prepend (rs : list Region) (l : list Z) (s : scan) :
  fold_left (step rc ref key k inmers exmers size gap) l (prepend rs s) =
  prepend rs (fold_left (step rc ref key k inmers exmers size gap) l s).
Proof.
  revert s. induction l as [|i l IH]; intros s; simpl; [reflexivity|].
  rewrite step_prepend. apply IH.
Qed.

(** The regions of a reference are appended to those found before, and
    do not depend on them. *)
Lemma scanReference_app (rs : list Region) :
  scanReference rc ref key k inmers exmers size gap rs =
  (rs ++ scanReference rc ref key k inmers exmers size gap [])%list.
Proof.
  unfold scanReference, scanWindows.
  assert (E : mkScan (-1) (-1) rs = prepend rs (mkScan (-1) (-1) [])).
  { unfold prepend. simpl. rewrite app_nil_r. reflexivity. }
  rewrite E, fold_step_prepend.
  destruct (fold_left _ _ _) as [st en regs]. apply (close_prepend rs).
Qed.

End ScanAppend.

(** ** The windows behind a region *)

Lemma ordered_snoc (k : Z) (rs : list Region) (r : Region) :
  ordered k rs -> Forall (fun r' => apart k r' r) rs ->
  ordered k (rs ++ [r]).
Proof.
  intros Hord Hall i j r1 r2 Hij H1 H2.
  destruct (decide (j < length rs)%nat) as [Hj|Hj].
  - rewrite lookup_app_l in H1 by lia. rewrite lookup_app_l in H2 by lia.
    exact (Hord i j r1 r2 Hij H1 H2).
  - assert (Hjlen : j = length rs).
    { apply lookup_lt_Some in H2. rewrite length_app in H2. simpl in H2. lia. }
    subst j. rewrite lookup_app_l in H1 by lia.
    rewrite lookup_app_r in H2 by lia.
    rewrite Nat.sub_diag in H2. injection H2 as <-.
    rewrite List.Forall_forall in Hall. apply Hall.
    apply list_elem_of_In, list_elem_of_lookup. eauto.
Qed.

Section ScanSupport.

Variable rc : string -> string.
Variables (ref key : string) (k : Z) (inmers exmers : gmap string Z)
          (size gap : Z).

Hypothesis k_pos : 1 <= k.
Hypothesis size_pos : 1 <= size.
Hypothesis gap_pos : 1 <= gap.

Lemma step_hit (s : scan) (i : Z) :
  step rc ref key k inmers exmers size gap s i =
  if hit rc ref k exmers i
  then mkScan (-1) (-1) (close ref key (size <=? end_ s - start s) s)
  else if hit rc ref k inmers i then build ref key k size gap s i else s.
Proof. reflexivity. Qed.

(** Closing an open chain: the region, if any, is supported, lies after
    the regions found before and ends with the chain. *)
Lemma close_chain (n : Z) (s : scan) (guard : bool) :
  n <= PyStr.len (PyStr.strip ref) - k + 1 ->
  (guard = true -> size <= end_ s - start s) ->
  scan_inv rc ref key k inmers exmers size n s ->
  0 <= start s ->
  Forall (region_ok rc ref key k inmers exmers size) (close ref key guard s) /\
  ordered k (close ref key guard s) /\
  Forall (fun r => last_window r + 1 <= end_ s) (close ref key guard s).
Proof.
  intros Hn Hguard (Hregs & Hord & Hchain) Hstart.
  destruct Hchain as [(Hs & _)|(Hfl & Hlast & Hin1 & Hin2 & Hex & Hbound)];
    [lia|].
  assert (Hold : Forall (fun r => last_window r + 1 <= end_ s) (regions s)).
  { eapply Forall_impl; [exact Hbound|]. simpl. intros r Hr. lia. }
  unfold close. destruct guard; [|auto].
  specialize (Hguard eq_refl). pose proof (len_strip ref) as Hstrip.
  set (r := mkRegion (PyStr.slice ref (start s) (end_ s)) key (start s)).
  assert (Hlen : PyStr.len (sequence r) = end_ s - start s).
  { subst r. simpl. apply len_slice; lia. }
  assert (Hfirst : first_window k r = start s - k + 1) by reflexivity.
  assert (Hlastw : last_window r = end_ s - 1).
  { unfold last_window. rewrite Hlen. subst r. simpl. lia. }
  split; [|split].
  - apply Forall_app. split; [exact Hregs|]. constructor; [|constructor].
    split; [reflexivity|]. split; [|split].
    + rewrite Hlen. subst r. simpl. f_equal. lia.
    + lia.
    + unfold supported. rewrite Hfirst, Hlastw.
      repeat split; try assumption; try lia.
      intros i Hi. apply Hex. lia.
  - apply ordered_snoc; [exact Hord|].
    eapply Forall_impl; [exact Hbound|]. simpl. intros r' Hr'.
    unfold apart, last_window in *. subst r. simpl. lia.
  - apply Forall_app. split; [exact Hold|]. constructor; [|constructor]. lia.
Qed.

(** An exclusion hit at the window [n]. *)
Lemma exclusion_inv (n : Z) (s : scan) :
  0 <= n < (PyStr.len (PyStr.strip ref) - k + 1) ->
  scan_inv rc ref key k inmers exmers size n s ->
  scan_inv rc ref key k inmers exmers size (n + 1)
    (mkScan (-1) (-1) (close ref key (size <=? end_ s - start s) s)).
Proof.
  intros Hn Hinv. pose proof Hinv as (Hregs & Hord & Hchain).
  destruct Hchain as [(Hs & He & Hb)|Hopen].
  - replace (size <=? end_ s - start s) with false
      by (symmetry; apply Z.leb_gt; lia).
    split; [exact Hregs|]. split; [exact Hord|]. left. simpl.
    repeat split.
    eapply Forall_impl; [exact Hb|]. simpl. intros r Hr. lia.
  - assert (Hguard : (size <=? end_ s - start s) = true ->
                     size <= end_ s - start s)
      by (intros H; apply Z.leb_le in H; exact H).
    assert (Hstart : 0 <= start s) by (destruct Hopen as (? & _); lia).
    destruct (close_chain n s (size <=? end_ s - start s)
                ltac:(lia) Hguard Hinv Hstart) as (Hregs' & Hord' & Hb').
    split; [exact Hregs'|]. split; [exact Hord'|]. left. simpl.
    repeat split. destruct Hopen as (_ & Hlast & _).
    eapply Forall_impl; [exact Hb'|]. simpl. intros r Hr. lia.
Qed.

(** An inclusion hit at the window [n], which is no exclusion hit. *)
Lemma build_inv (n : Z) (s : scan) :
  0 <= n < (PyStr.len (PyStr.strip ref) - k + 1) ->
  hit rc ref k exmers n = false ->
  hit rc ref k inmers n = true ->
  scan_inv rc ref key k inmers exmers size n s ->
  scan_inv rc ref key k inmers exmers size (n + 1)
    (build ref key k size gap s n).
Proof.
  intros Hn Hex Hin Hinv. pose proof Hinv as (Hregs & Hord & Hchain).
  unfold build.
  destruct Hchain as [(Hs & He & Hb)|(Hfl & Hlast & Hin1 & Hin2 & Hexs & Hb)].
  - (* a new chain *)
    rewrite Hs, He. cbn [andb Z.ltb Z.compare start end_ regions].
    replace (0 <=? n + k - 1) with true by (symmetry; apply Z.leb_le; lia).
    replace (0 <=? n + 1) with true by (symmetry; apply Z.leb_le; lia).
    replace (n - (n + 1 + 1) <=? gap) with true
      by (symmetry; apply Z.leb_le; lia).
    cbn [andb start end_ regions].
    split; [exact Hregs|]. split; [exact Hord|]. right.
    cbn [start end_ regions].
    replace (n + k - 1 - k + 1) with n by lia.
    replace (n + 1 - 1) with n by lia.
    repeat split; try assumption; try lia.
    intros i Hi. replace i with n by lia. exact Hex.
  - replace ((start s <? 0) && (end_ s <? 0))%bool with false
      by (symmetry; apply andb_false_iff; left; apply Z.ltb_ge; lia).
    replace ((0 <=? start s) && (0 <=? end_ s))%bool with true
      by (symmetry; apply andb_true_iff; split; apply Z.leb_le; lia).
    destruct (Z.leb_spec (n - (end_ s + 1)) gap) as [Hgap|Hgap].
    + (* the chain goes on *)
      split; [exact Hregs|]. split; [exact Hord|]. right.
      cbn [start end_ regions].
      replace (n + 1 - 1) with n by lia.
      repeat split; try assumption; try lia.
      intros i Hi. destruct (Z.eq_dec i n) as [->|Hne]; [exact Hex|].
      apply Hexs. lia.
    + (* the chain breaks, and a new one starts *)
      assert (Hguard : (size <=? end_ s - start s) = true ->
                       size <= end_ s - start s)
        by (intros H; apply Z.leb_le in H; exact H).
      destruct (close_chain n s (size <=? end_ s - start s)
                  ltac:(lia) Hguard Hinv ltac:(lia))
        as (Hregs' & Hord' & Hb').
      split; [exact Hregs'|]. split; [exact Hord'|]. right.
      cbn [start end_ regions].
      replace (n + k - 1 - k + 1) with n by lia.
      replace (n + 1 - 1) with n by lia.
      repeat split; try assumption; try lia.
      * intros i Hi. replace i with n by lia. exact Hex.
      * eapply Forall_impl; [exact Hb'|]. simpl. intros r Hr. lia.
Qed.

Lemma step_inv (n : Z) (s : scan) :
  0 <= n < (PyStr.len (PyStr.strip ref) - k + 1) ->
  scan_inv rc ref key k inmers exmers size n s ->
  scan_inv rc ref key k inmers exmers size (n + 1)
    (step rc ref key k inmers exmers size gap s n).
Proof.
  intros Hn Hinv. rewrite step_hit.
  destruct (hit rc ref k exmers n) eqn:Hex; [apply exclusion_inv; assumption|].
  destruct (hit rc ref k inmers n) eqn:Hin; [apply build_inv; assumption|].
  destruct Hinv as (Hregs & Hord & Hchain).
  split; [exact Hregs|]. split; [exact Hord|].
  destruct Hchain as [(Hs & He & Hb)|(Hfl & Hlast & Hin1 & Hin2 & Hexs & Hb)].
  - left. repeat split; try assumption.
    eapply Forall_impl; [exact Hb|]. simpl. intros r Hr. lia.
  - right. repeat split; try assumption; try lia.
    intros i Hi. destruct (Z.eq_dec i n) as [->|Hne]; [exact Hex|].
    apply Hexs. lia.
Qed.

Lemma fold_step_inv (m a : nat) (s : scan) :
  Z.of_nat (a + m) <= Z.max 0 (PyStr.len (PyStr.strip ref) - k + 1) ->
  scan_inv rc ref key k inmers exmers size (Z.of_nat a) s ->
  scan_inv rc ref key k inmers exmers size (Z.of_nat (a + m))
    (fold_left (step rc ref key k inmers exmers size gap)
               (map Z.of_nat (seq a m)) s).
Proof.
  revert a s. induction m as [|m IH]; intros a s Hle Hinv; simpl.
  - rewrite Nat.add_0_r. exact Hinv.
  - replace (a + S m)%nat with (S a + m)%nat by lia.
    apply IH; [lia|].
    replace (Z.of_nat (S a)) with (Z.of_nat a + 1) by lia.
    apply step_inv; [lia | exact Hinv].
Qed.

(** The regions of one reference, scanned on its own. *)
Lemma scanReference_supported :
  Forall (region_ok rc ref key k inmers exmers size)
         (scanReference rc ref key k inmers exmers size gap []) /\
  ordered k (scanReference rc ref key k inmers exmers size gap []).
Proof.
  unfold scanReference, scanWindows, windows, range.
  set (m := Z.to_nat (PyStr.len (PyStr.strip ref) - k + 1)).
  assert (Hinv : scan_inv rc ref key k inmers exmers size (Z.of_nat (0 + m))
                   (fold_left (step rc ref key k inmers exmers size gap)
                              (map Z.of_nat (seq 0 m)) (mkScan (-1) (-1) []))).
  { apply fold_step_inv; [subst m; lia|].
    split; [constructor|]. split.
    - intros i j r1 r2 _ H. simpl in H. destruct i; discriminate H.
    - left. simpl. repeat split. constructor. }
  set (s := fold_left _ _ _) in *. clearbody s. simpl in Hinv.
  pose proof Hinv as (Hregs & Hord & Hchain).
  destruct Hchain as [(Hs & He & Hb)|Hopen].
  - rewrite Hs, He. simpl. unfold close. simpl. auto.
  - assert (Hguard : ((0 <=? start s) && (0 <? end_ s)
                      && (size <=? end_ s - start s))%bool = true ->
                     size <= end_ s - start s).
    { intros H. apply andb_true_iff in H as [_ H]. apply Z.leb_le in H.
      exact H. }
    assert (Hm : Z.of_nat m <= PyStr.len (PyStr.strip ref) - k + 1)
      by (destruct Hopen as (? & ? & _); subst m; lia).
    assert (Hstart : 0 <= start s) by (destruct Hopen as (? & _); lia).
    destruct (close_chain (Z.of_nat m) s _ Hm Hguard Hinv Hstart)
      as (Hregs' & Hord' & _).
    auto.
Qed.

End ScanSupport.

(** ** The regions of a run, reference by reference *)

Lemma ordered_by_reference_app (k : Z) (seen : list string) (key : string)
    (rs new : list Region) :
  ordered_by_reference k rs -> ordered k new ->
  Forall (fun r => In (reference r) seen) rs ->
  Forall (fun r => reference r = key) new ->
  ~ In key seen ->
  ordered_by_reference k (rs ++ new).
Proof.
  intros Hrs Hnew Hseen Hkey Hfresh i j r1 r2 Hij H1 H2 Href.
  destruct (decide (j < length rs)%nat) as [Hj|Hj].
  - rewrite lookup_app_l in H1 by lia. rewrite lookup_app_l in H2 by lia.
    exact (Hrs i j r1 r2 Hij H1 H2 Href).
  - rewrite lookup_app_r in H2 by lia.
    destruct (decide (i < length rs)%nat) as [Hi|Hi].
    + rewrite lookup_app_l in H1 by lia. exfalso. apply Hfresh.
      rewrite List.Forall_forall in Hseen, Hkey.
      rewrite <- (Hkey r2), <- Href.
      * apply Hseen, list_elem_of_In, list_elem_of_lookup. eauto.
      * apply list_elem_of_In, list_elem_of_lookup. eauto.
    + rewrite lookup_app_r in H1 by lia.
      apply (Hnew (i - length rs)%nat (j - length rs)%nat); [lia | assumption..].
Qed.

Section RunSupport.

Variable rc : string -> string.
Variables (k : Z) (inmers exmers : gmap string Z) (size gap : Z).

Hypothesis k_pos : 1 <= k.
Hypothesis size_pos : 1 <= size.
Hypothesis gap_pos : 1 <= gap.

Lemma fold_scanReference (l : list (string * string)) (seen : list string)
    (rs : list Region) :
  NoDup (seen ++ map fst l) ->
  Forall (fun r => In (reference r) seen) rs ->
  ordered_by_reference k rs ->
  let out :=
    fold_left
      (fun rs kr =>
         scanReference rc (snd kr) (fst kr) k inmers exmers size gap rs)
      l rs in
  Forall (fun r => In r rs \/
                   exists key ref, In (key, ref) l /\
                     region_ok rc ref key k inmers exmers size r) out /\
  ordered_by_reference k out.
Proof.
  revert seen rs. induction l as [|[key ref] l IH]; intros seen rs Hnd Hseen Hord;
    simpl.
  - split; [|exact Hord]. apply List.Forall_forall. auto.
  - rewrite scanReference_app.
    destruct (scanReference_supported rc ref key k inmers exmers size gap
                k_pos size_pos gap_pos) as [Hok Hnew].
    set (new := scanReference rc ref key k inmers exmers size gap []) in *.
    clearbody new. simpl in Hnd.
    assert (Hkey : Forall (fun r => reference r = key) new).
    { eapply Forall_impl; [exact Hok|]. intros r Hr. apply Hr. }
    assert (Hfresh : ~ In key seen).
    { intros Hin. apply NoDup_app in Hnd as (_ & Hdisj & _).
      apply (Hdisj key); [apply list_elem_of_In, Hin | left]. }
    destruct (IH (seen ++ [key])%list (rs ++ new)%list) as [Hall Hout].
    + rewrite <- app_assoc. exact Hnd.
    + apply Forall_app. split.
      * eapply Forall_impl; [exact Hseen|]. simpl. intros r Hr.
        apply in_or_app. now left.
      * eapply Forall_impl; [exact Hkey|]. simpl. intros r ->.
        apply in_or_app. right. now left.
    + eapply ordered_by_reference_app; eassumption.
    + split; [|exact Hout].
      eapply Forall_impl; [exact Hall|]. simpl.
      intros r [Hin|(key' & ref' & Hin & Hr)].
      * apply in_app_or in Hin as [Hin|Hin]; [now left|].
        right. exists key, ref. split; [now left|].
        rewrite List.Forall_forall in Hok. apply Hok, Hin.
      * right. exists key', ref'. split; [now right | exact Hr].
Qed.

Lemma scanReferences_supported (references : gmap string string) :
  Forall (fun r => exists ref,
            references !! reference r = Some ref /\
            region_ok rc ref (reference r) k inmers exmers size r)
         (scanReferences rc references k inmers exmers size gap) /\
  ordered_by_reference k
    (scanReferences rc references k inmers exmers size gap).
Proof.
  unfold scanReferences.
  destruct (fold_scanReference (map_to_list references) [] [])
    as [Hall Hord].
  - simpl. apply NoDup_fst_map_to_list.
  - constructor.
  - intros i j r1 r2 _ H. destruct i; discriminate H.
  - split; [|exact Hord].
    eapply Forall_impl; [exact Hall|]. simpl.
    intros r [[]|(key & ref & Hin & Hr)].
    exists ref. assert (Hkey : reference r = key) by apply Hr.
    rewrite Hkey. split; [|exact Hr].
    apply elem_of_map_to_list, list_elem_of_In, Hin.
Qed.

End RunSupport.

(** ** Runs of [extract] *)

(** X1.  No window that overlaps an emitted region hits the exclusion
    dictionary, and the first and the last of these windows hit the
    inclusion dictionary: with [a = position - k + 1] and
    [b = position + len(sequence) - 1], the windows [a .. b] are windows of
    the scan of the region's reference. *)
Theorem extract_regions_supported rc (references : gmap string string) k
    (inmers exmers : gmap string Z) size gap outputFile regions out :
  extract rc (Some references) k (Some inmers) (Some exmers) size gap
          outputFile = OK (regions, out) ->
  forall r, In r regions ->
  exists ref,
    references !! reference r = Some ref /\
    0 <= first_window k r <= last_window r /\
    last_window r < PyStr.len (PyStr.strip ref) - k + 1 /\
    hit rc ref k inmers (first_window k r) = true /\
    hit rc ref k inmers (last_window r) = true /\
    forall i, first_window k r <= i <= last_window r ->
              hit rc ref k exmers i = false.
Proof.
  intros H r Hr.
  apply extract_OK in H
    as (refs & inm & exm & file & [= <-] & [= <-] & [= <-] & _ & _ & Hk & _
        & Hsize & Hgap & -> & _).
  destruct (scanReferences_supported rc k inmers exmers size gap
              Hk Hsize Hgap references) as [Hall _].
  rewrite List.Forall_forall in Hall.
  destruct (Hall r Hr) as (ref & Href & _ & _ & _ & Hsup).
  exists ref. split; [exact Href | exact Hsup].
Qed.

Lemma extract_regions_supported_witness :
  exists ref,
    scenario_references !! "ref" = Some ref /\
    0 <= first_window 2 (mkRegion "AAA" "ref" 1)
      <= last_window (mkRegion "AAA" "ref" 1) /\
    last_window (mkRegion "AAA" "ref" 1)
      < PyStr.len (PyStr.strip ref) - 2 + 1 /\
    hit reverseComplement ref 2 pair_inmers
        (first_window 2 (mkRegion "AAA" "ref" 1)) = true /\
    hit reverseComplement ref 2 pair_inmers
        (last_window (mkRegion "AAA" "ref" 1)) = true /\
    forall i, first_window 2 (mkRegion "AAA" "ref" 1) <= i
              <= last_window (mkRegion "AAA" "ref" 1) ->
              hit reverseComplement ref 2 pair_exmers i = false.
Proof.
  assert (H : extract reverseComplement (Some scenario_references) 2
                (Some pair_inmers) (Some pair_exmers) 1 1 (Some [])
              = OK ([mkRegion "AAA" "ref" 1],
                    [mkSignature 0 0%R 0%R 0%R "AAA" "ref" 1]))
    by (vm_compute; reflexivity).
  apply (extract_regions_supported _ _ _ _ _ _ _ _ _ _ H
           (mkRegion "AAA" "ref" 1)).
  simpl. left. reflexivity.
Defined.

(** X2.  Two regions of the same reference come in the order of the
    reference and lie at least [k] characters apart: the later one starts
    [k] or more characters after the end of the earlier one. *)
Theorem extract_regions_apart rc (references : gmap string string) k
    (inmers exmers : gmap string Z) size gap outputFile regions out :
  extract rc (Some references) k (Some inmers) (Some exmers) size gap
          outputFile = OK (regions, out) ->
  forall (i j : nat) (r1 r2 : Region),
    (i < j)%nat -> regions !! i = Some r1 -> regions !! j = Some r2 ->
    reference r1 = reference r2 ->
    position r1 + PyStr.len (sequence r1) + k <= position r2.
Proof.
  intros H.
  apply extract_OK in H
    as (refs & inm & exm & file & [= <-] & [= <-] & [= <-] & _ & _ & Hk & _
        & Hsize & Hgap & -> & _).
  destruct (scanReferences_supported rc k inmers exmers size gap
              Hk Hsize Hgap references) as [_ Hord].
  exact Hord.
Qed.

Lemma extract_regions_apart_witness :
  position (mkRegion "AA" "ref" 1)
    + PyStr.len (sequence (mkRegion "AA" "ref" 1)) + 2
  <= position (mkRegion "AA" "ref" 7).
Proof.
  assert (H : extract reverseComplement (Some gapped_references) 2
                (Some pair_inmers) (Some pair_exmers) 1 1 (Some [])
              = OK ([mkRegion "AA" "ref" 1; mkRegion "AA" "ref" 7],
                    [mkSignature 0 0%R 0%R 0%R "AA" "ref" 1;
                     mkSignature 1 0%R 0%R 0%R "AA" "ref" 7]))
    by (vm_compute; reflexivity).
  apply (extract_regions_apart _ _ _ _ _ _ _ _ _ _ H 0%nat 1%nat);
    [lia | reflexivity | reflexivity | reflexivity].
Defined.

(** X3.  When no window of any reference hits the inclusion dictionary,
    in particular when every reference is shorter than [k], the run emits
    no region. *)
Theorem extract_no_inclusion_hit rc (references : gmap string string) k
    (inmers exmers : gmap string Z) size gap outputFile regions out :
  (forall key ref i,
     references !! key = Some ref ->
     0 <= i < PyStr.len (PyStr.strip ref) - k + 1 ->
     hit rc ref k inmers i = false) ->
  extract rc (Some references) k (Some inmers) (Some exmers) size gap
          outputFile = OK (regions, out) ->
  regions = [].
Proof.
  intros Hno H. destruct regions as [|r rs]; [reflexivity|]. exfalso.
  apply extract_OK in H
    as (refs & inm & exm & file & [= <-] & [= <-] & [= <-] & _ & _ & Hk & _
        & Hsize & Hgap & Hregs & _).
  destruct (scanReferences_supported rc k inmers exmers size gap
              Hk Hsize Hgap references) as [Hall _].
  rewrite <- Hregs in Hall. apply Forall_cons in Hall as [Hr _].
  destruct Hr as (ref & Href & _ & _ & _ & Hfl & Hlast & Hin & _).
  rewrite (Hno (reference r) ref (first_window k r)) in Hin;
    [discriminate | exact Href | lia].
Qed.

Lemma extract_no_inclusion_hit_witness :
  extract reverseComplement (Some scenario_references) 5
          (Some {[ "ACGTA" := 1 ]}) (Some ∅) 1 1 (Some [])
    = OK ([], []) /\
  @nil Region = [].
Proof.
  assert (H : extract reverseComplement (Some scenario_references) 5
                (Some {[ "ACGTA" := 1 ]}) (Some ∅) 1 1 (Some [])
              = OK ([], []))
    by (vm_compute; reflexivity).
  split; [exact H|].
  apply (extract_no_inclusion_hit _ _ _ _ _ _ _ _ _ _) with (2 := H).
  intros key ref i Href Hi.
  unfold scenario_references in Href.
  apply lookup_singleton_Some in Href as [_ <-].
  assert (Hlen : PyStr.len (PyStr.strip "AAAAACCCCC") = 10) by reflexivity.
  rewrite Hlen in Hi.
  assert (Hcases : i = 0 \/ i = 1 \/ i = 2 \/ i = 3 \/ i = 4 \/ i = 5)
    by lia.
  destruct Hcases as [->|[->|[->|[->|[->| ->]]]]]; vm_compute; reflexivity.
Defined.

Lemma fold_scanReference_concat rc k (inmers exmers : gmap string Z) size gap
    (l : list (string * string)) (rs : list Region) :
  fold_left
    (fun rs kr => scanReference rc (snd kr) (fst kr) k inmers exmers size gap rs)
    l rs =
  (rs ++ concat (map (fun kr =>
                        scanReference rc (snd kr) (fst kr) k
                                      inmers exmers size gap [])
                     l))%list.
Proof.
  revert rs. induction l as [|[key ref] l IH]; intros rs; simpl.
  - rewrite app_nil_r. reflexivity.
  - rewrite IH, scanReference_app, <- app_assoc. reflexivity.
Qed.

(** X4.  The regions of a run are the regions each reference yields when
    it is scanned on its own, one reference after the other: a scan
    neither reads nor changes what was found in another reference. *)
Theorem scanReferences_concat rc (references : gmap string string) k
    (inmers exmers : gmap string Z) size gap :
  scanReferences rc references k inmers exmers size gap =
  concat (map (fun kr =>
                 scanReference rc (snd kr) (fst kr) k inmers exmers size gap [])
              (map_to_list references)).
Proof. unfold scanReferences. apply fold_scanReference_concat. Qed.

Section Covered.

Variable rc : string -> string.
Variables (ref key : string) (k : Z) (inmers exmers : gmap string Z)
          (size gap : Z).

Hypothesis k_pos : 1 <= k.
Hypothesis gap_pos : 1 <= gap.
Hypothesis all_hits :
  forall i, 0 <= i < PyStr.len (PyStr.strip ref) - k + 1 ->
            hit rc ref k exmers i = false /\ hit rc ref k inmers i = true.

Lemma fold_step_covered (m : nat) (a : nat) (rs : list Region) :
  Z.of_nat (S a + m) <= PyStr.len (PyStr.strip ref) - k + 1 ->
  fold_left (step rc ref key k inmers exmers size gap)
            (map Z.of_nat (seq (S a) m)) (mkScan (k - 1) (Z.of_nat (S a)) rs)
  = mkScan (k - 1) (Z.of_nat (S a + m)) rs.
Proof.
  revert a. induction m as [|m IH]; intros a Hle; simpl.
  - rewrite Nat.add_0_r. reflexivity.
  - rewrite step_hit.
    destruct (all_hits (Z.of_nat (S a))) as [-> ->]; [lia|].
    unfold build. cbn [start end_ regions].
    replace ((k - 1 <? 0) && (Z.of_nat (S a) <? 0))%bool with false
      by (symmetry; apply andb_false_iff; left; apply Z.ltb_ge; lia).
    cbn [start end_ regions].
    replace ((0 <=? k - 1) && (0 <=? Z.of_nat (S a)))%bool with true
      by (symmetry; apply andb_true_iff; split; apply Z.leb_le; lia).
    replace (Z.of_nat (S a) - (Z.of_nat (S a) + 1) <=? gap) with true
      by (symmetry; apply Z.leb_le; lia).
    cbn [start end_ regions].
    replace (Z.of_nat (S a) + 1) with (Z.of_nat (S (S a))) by lia.
    rewrite IH by lia. f_equal. lia.
Qed.

(** X5.  A reference all of whose windows hit the inclusion dictionary
    and none the exclusion dictionary yields one region, from the last
    character of its first k-mer to the first character of its last: the
    slice from [k - 1] to the number of windows, when that is at least
    [size] long, and nothing otherwise. *)
Theorem scanReference_covered :
  1 <= PyStr.len (PyStr.strip ref) - k + 1 ->
  scanReference rc ref key k inmers exmers size gap [] =
  if size <=? PyStr.len (PyStr.strip ref) - k + 1 - (k - 1)
  then [mkRegion (PyStr.slice ref (k - 1)
                    (PyStr.len (PyStr.strip ref) - k + 1)) key (k - 1)]
  else [].
Proof.
  intros HL. unfold scanReference, scanWindows, windows, range.
  set (L := PyStr.len (PyStr.strip ref) - k + 1) in *.
  destruct (Z.to_nat L) as [|m] eqn:Em; [lia|].
  cbn [seq map fold_left]. change (Z.of_nat 0) with 0. rewrite step_hit.
  destruct (all_hits 0) as [-> ->]; [lia|].
  unfold build. cbn [start end_ regions andb Z.ltb Z.compare].
  replace ((0 <=? 0 + k - 1) && (0 <=? 0 + 1))%bool with true
    by (symmetry; apply andb_true_iff; split; apply Z.leb_le; lia).
  replace (0 - (0 + 1 + 1) <=? gap) with true
    by (symmetry; apply Z.leb_le; lia).
  cbn [start end_ regions].
  replace (0 + k - 1) with (k - 1) by lia.
  change (0 + 1) with (Z.of_nat 1).
  rewrite fold_step_covered by (fold L; lia).
  replace (Z.of_nat (1 + m)) with L by lia.
  unfold close. cbn [start end_ regions].
  replace (0 <=? k - 1) with true by (symmetry; apply Z.leb_le; lia).
  replace (0 <? L) with true by (symmetry; apply Z.ltb_lt; lia).
  cbn [andb]. reflexivity.
Qed.

End Covered.

Lemma scanReference_covered_witness :
  scanReference reverseComplement "AAAAA" "ref" 2 pair_inmers ∅ 1 1 [] =
  if 1 <=? PyStr.len (PyStr.strip "AAAAA") - 2 + 1 - (2 - 1)
  then [mkRegion (PyStr.slice "AAAAA" (2 - 1)
                    (PyStr.len (PyStr.strip "AAAAA") - 2 + 1)) "ref" (2 - 1)]
  else [].
Proof.
  apply (scanReference_covered reverseComplement "AAAAA" "ref" 2
           pair_inmers ∅ 1 1); [lia | lia | | vm_compute; discriminate].
  intros i Hi.
  assert (Hlen : PyStr.len (PyStr.strip "AAAAA") = 5) by reflexivity.
  rewrite Hlen in Hi.
  assert (Hcases : i = 0 \/ i = 1 \/ i = 2 \/ i = 3) by lia.
  destruct Hcases as [->|[->|[->| ->]]]; split; vm_compute; reflexivity.
Defined.

(** ** The checks of [extract] *)

Lemma dlen_pos {V : Type} (d : gmap string V) : 1 <= dlen d <-> d <> ∅.
Proof.
  unfold dlen. rewrite <- map_size_non_empty_iff. lia.
Qed.

(** X6.  [extract] returns exactly when there is a reference, [k >= 1],
    there is an inclusion k-mer, the exclusion dictionary is given (it may
    be empty), [size >= 1], [gap >= 1] and the output file is given; in
    every other case it raises a [RuntimeError]. *)
Theorem extract_checks rc references k inmers exmers size gap outputFile :
  ((exists result, extract rc references k inmers exmers size gap outputFile
                   = OK result) <->
   (exists refs inm exm file,
      references = Some refs /\ inmers = Some inm /\ exmers = Some exm /\
      outputFile = Some file /\
      refs <> ∅ /\ 1 <= k /\ inm <> ∅ /\ 1 <= size /\ 1 <= gap)) /\
  ((exists result, extract rc references k inmers exmers size gap outputFile
                   = OK result) \/
   rejects (extract rc references k inmers exmers size gap outputFile)).
Proof.
  split; [split|].
  - intros [[regions out] H].
    apply extract_OK in H
      as (refs & inm & exm & file & -> & -> & -> & -> & Hr & Hk & Hi & Hs
          & Hg & _).
    exists refs, inm, exm, file. rewrite <- !dlen_pos. auto 10.
  - intros (refs & inm & exm & file & -> & -> & -> & -> & Hr & Hk & Hi & Hs
            & Hg).
    apply dlen_pos in Hr. apply dlen_pos in Hi. unfold extract.
    destruct (Z.ltb_spec (dlen refs) 1); [lia|].
    destruct (Z.ltb_spec k 1); [lia|].
    destruct (Z.ltb_spec (dlen inm) 1); [lia|].
    destruct (Z.ltb_spec size 1); [lia|].
    destruct (Z.ltb_spec gap 1); [lia|].
    eexists. reflexivity.
  - unfold extract, rejects.
    destruct references as [refs|]; [|right; eauto].
    destruct (dlen refs <? 1); [right; eauto|].
    destruct (k <? 1); [right; eauto|].
    destruct inmers as [inm|]; [|right; eauto].
    destruct (dlen inm <? 1); [right; eauto|].
    destruct exmers as [exm|]; [|right; eauto].
    destruct (size <? 1); [right; eauto|].
    destruct (gap <? 1); [right; eauto|].
    destruct outputFile as [file|]; [left; eauto | right; eauto].
Qed.

(** ** The signatures written *)

Lemma writeSignatures_app (i : Z) (rs : list Region) (file : list Signature) :
  writeSignatures i rs file =
  (file ++ imap (fun j r => mkSignature (i + Z.of_nat j) 0%R 0%R 0%R
                              (sequence r) (reference r) (position r)) rs)%list.
Proof.
  revert i file. induction rs as [|r rs IH]; intros i file; simpl.
  - rewrite app_nil_r. reflexivity.
  - rewrite IH. unfold writeSignature. rewrite <- app_assoc. simpl.
    f_equal. f_equal; [f_equal; lia|].
    apply imap_ext. intros j r' _. simpl. f_equal. lia.
Qed.

(** X7.  The output file after a run is the file as it was, followed by
    one signature per region, in the order of the regions: the signature
    of the region at index [j] has id [j], scores 0.0 and the sequence,
    the reference and the position of the region. *)
Theorem extract_signatures rc references k inmers exmers size gap
    (file : list Signature) regions out :
  extract rc references k inmers exmers size gap (Some file)
    = OK (regions, out) ->
  out = (file ++ imap (fun j r => mkSignature (Z.of_nat j) 0%R 0%R 0%R
                                    (sequence r) (reference r) (position r))
                      regions)%list /\
  length out = (length file + length regions)%nat.
Proof.
  intros H.
  apply extract_OK in H
    as (refs & inm & exm & file' & _ & _ & _ & [= <-] & _ & _ & _ & _ & _
        & _ & ->).
  rewrite writeSignatures_app. split.
  - f_equal.
  - rewrite length_app, length_imap. reflexivity.
Qed.

Lemma extract_signatures_witness :
  [mkSignature 0 0%R 0%R 0%R "AA" "ref" 1;
   mkSignature 1 0%R 0%R 0%R "AA" "ref" 7] =
  ([] ++ imap (fun j r => mkSignature (Z.of_nat j) 0%R 0%R 0%R
                            (sequence r) (reference r) (position r))
              [mkRegion "AA" "ref" 1; mkRegion "AA" "ref" 7])%list /\
  length [mkSignature 0 0%R 0%R 0%R "AA" "ref" 1;
          mkSignature 1 0%R 0%R 0%R "AA" "ref" 7] =
  (length (@nil Signature)
   + length [mkRegion "AA" "ref" 1; mkRegion "AA" "ref" 7])%nat.
Proof.
  assert (H : extract reverseComplement (Some gapped_references) 2
                (Some pair_inmers) (Some pair_exmers) 1 1 (Some [])
              = OK ([mkRegion "AA" "ref" 1; mkRegion "AA" "ref" 7],
                    [mkSignature 0 0%R 0%R 0%R "AA" "ref" 1;
                     mkSignature 1 0%R 0%R 0%R "AA" "ref" 7]))
    by (vm_compute; reflexivity).
  exact (extract_signatures _ _ _ _ _ _ _ _ _ _ H).
Defined.

(** ** The match probabilities *)

Section Probabilities.

Local Open Scope R_scope.

Lemma pow_le_1 (p : R) (n : nat) : 0 <= p <= 1 -> 0 <= p ^ n <= 1.
Proof.
  intros Hp. split; [apply pow_le; lra|].
  rewrite <- (pow1 n). apply pow_incr. exact Hp.
Qed.

Lemma pow_lt_1 (p : R) (n : nat) : 0 <= p < 1 -> (1 <= n)%nat -> p ^ n < 1.
Proof.
  intros Hp Hn. destruct n as [|n]; [lia|]. simpl.
  pose proof (pow_le_1 p n ltac:(lra)) as Hpn. nra.
Qed.

Lemma pow_decreasing (p : R) (n m : nat) :
  0 <= p <= 1 -> (n <= m)%nat -> p ^ m <= p ^ n.
Proof.
  intros Hp Hnm. replace m with (n + (m - n))%nat by lia.
  rewrite pow_add.
  pose proof (pow_le_1 p n Hp). pose proof (pow_le_1 p (m - n) Hp). nra.
Qed.

(** X8.  For a mutation rate and a GC-content in [0, 1] and [k >= 1] the
    three match probabilities are returned (no division raises) and lie
    in [0, 1]; the k-mer probability is the base probability to the
    power [k]. *)
Theorem match_probabilities (M GC : R) (k : Z) :
  0 <= M <= 1 -> 0 <= GC <= 1 -> (1 <= k)%Z ->
  exists a b c,
    calculateProbHBMM GC = OK a /\ calculateProbHBM M GC = OK b /\
    calculateProbHKM M GC k = OK c /\
    0 <= a <= 1 /\ 0 <= b <= 1 /\ 0 <= c <= 1 /\
    b = (1 - M) * (1 - M) + M * M * a /\ c = b ^ Z.to_nat k.
Proof.
  intros HM HGC Hk.
  exists (Spec.probHomologousBaseMutateMatch GC),
         (Spec.probHomologousBaseMatch M GC),
         (Spec.probHomologousKmerMatch M GC k).
  rewrite calculateProbHBMM_OK, calculateProbHBM_OK, calculateProbHKM_OK
    by assumption.
  repeat split; try reflexivity;
    try apply probHBMM_range; try apply probHBM_range;
    try apply probHKM_range; try assumption.
  unfold Spec.probHomologousBaseMatch. ring.
Qed.

Lemma match_probabilities_witness :
  exists a b c,
    calculateProbHBMM (1 / 2) = OK a /\
    calculateProbHBM (1 / 100) (1 / 2) = OK b /\
    calculateProbHKM (1 / 100) (1 / 2) 21 = OK c /\
    0 <= a <= 1 /\ 0 <= b <= 1 /\ 0 <= c <= 1 /\
    b = (1 - 1 / 100) * (1 - 1 / 100) + 1 / 100 * (1 / 100) * a /\
    c = b ^ Z.to_nat 21.
Proof.
  apply (match_probabilities (1 / 100) (1 / 2) 21); lra || lia.
Defined.

(** X9.  The k-mer match probability does not grow with [k]. *)
Theorem calculateProbHKM_decreasing (M GC : R) (k1 k2 : Z) (c1 c2 : R) :
  (k1 <= k2)%Z ->
  calculateProbHKM M GC k1 = OK c1 ->
  calculateProbHKM M GC k2 = OK c2 ->
  c2 <= c1.
Proof.
  intros Hk H1 H2.
  assert (Hdom : 0 <= M <= 1 /\ 0 <= GC <= 1 /\ (1 <= k1)%Z).
  { unfold calculateProbHKM in H1.
    destruct (PyFloat.ltb M 0 || PyFloat.ltb 1 M)%bool eqn:E1; [discriminate|].
    destruct (PyFloat.ltb GC 0 || PyFloat.ltb 1 GC)%bool eqn:E2; [discriminate|].
    destruct (Z.ltb_spec k1 1); [discriminate|].
    apply orb_false_iff in E1 as [E1 E1']. apply orb_false_iff in E2 as [E2 E2'].
    apply ltb_false in E1, E1', E2, E2'. lra || (repeat split; lra || lia). }
  destruct Hdom as (HM & HGC & Hk1).
  rewrite calculateProbHKM_OK in H1, H2 by (assumption || lia).
  injection H1 as <-. injection H2 as <-.
  unfold Spec.probHomologousKmerMatch.
  apply pow_decreasing; [apply probHBM_range; assumption | lia].
Qed.

Lemma calculateProbHKM_decreasing_witness :
  Spec.probHomologousKmerMatch (1 / 2) (1 / 2) 2
  <= Spec.probHomologousKmerMatch (1 / 2) (1 / 2) 1.
Proof.
  apply (calculateProbHKM_decreasing (1 / 2) (1 / 2) 1 2);
    [lia | |]; apply calculateProbHKM_OK; lra || lia.
Defined.

End Probabilities.

(** ** The estimates and the checks of [extract] *)

Section Estimates.

Local Open Scope R_scope.

Lemma probHBM_inside (M GC : R) :
  0 < M < 1 -> 0 <= GC <= 1 -> 0 < Spec.probHomologousBaseMatch M GC < 1.
Proof.
  intros HM HGC. unfold Spec.probHomologousBaseMatch.
  pose proof (probHBMM_range GC HGC) as Hf.
  set (f := Spec.probHomologousBaseMutateMatch GC) in *. clearbody f.
  nra.
Qed.

Lemma gapSize_pos (M GC : R) (k : Z) (c : R) :
  0 < Spec.probHomologousBaseMatch M GC < 1 -> (1 <= k)%Z -> 0 < c < 1 ->
  (1 <= Spec.gapSize M GC k c)%Z.
Proof.
  intros Hp Hk Hc. unfold Spec.gapSize.
  set (p := Spec.probHomologousBaseMatch M GC) in *. clearbody p.
  set (x := Spec.gapMean p k + _).
  assert (Hx : 0 < x).
  { subst x.
    assert (Hmean : 0 < Spec.gapMean p k).
    { unfold Spec.gapMean.
      pose proof (pow_lt_1 p (Z.to_nat k) ltac:(lra) ltac:(lia)).
      pose proof (pow_lt p (Z.to_nat k) ltac:(lra)).
      apply Rdiv_lt_0_compat; [lra|]. apply Rmult_lt_0_compat; lra. }
    pose proof (sqrt_pos (1 / (1 - c))).
    pose proof (sqrt_pos (Spec.gapVariance p k)).
    assert (0 <= sqrt (1 / (1 - c)) * sqrt (Spec.gapVariance p k))
      by (apply Rmult_le_pos; assumption).
    lra. }
  pose proof (Zceil_bound x) as [_ Hb].
  assert (0 < IZR (Zceil x)) by lra.
  apply lt_IZR in H. lia.
Qed.

Lemma estimateGapSize_value (M GC : R) (k : Z) (c : R) :
  0 <= M <= 1 -> 0 <= GC <= 1 -> (1 <= k)%Z -> 0 < c < 1 ->
  0 < Spec.probHomologousBaseMatch M GC < 1 ->
  estimateGapSize M GC k c = OK (Spec.gapSize M GC k c).
Proof.
  intros HM HGC Hk Hc Hp.
  assert (Hden : (1 - Spec.probHomologousBaseMatch M GC)
                 * Spec.probHomologousBaseMatch M GC ^ Z.to_nat k <> 0).
  { pose proof (pow_lt (Spec.probHomologousBaseMatch M GC) (Z.to_nat k)
                  ltac:(lra)).
    apply Rmult_integral_contrapositive_currified; lra. }
  pose proof (gapVariance_nonneg (Spec.probHomologousBaseMatch M GC) k
                ltac:(lra) ltac:(lia) Hden) as Hvar.
  rewrite estimateGapSize_steps by assumption.
  unfold gapMoments, gapEstimate.
  set (p := Spec.probHomologousBaseMatch M GC) in *.
  assert (Hq : 1 - p <> 0) by lra.
  assert (Hden2 : ((1 - p) * p ^ Z.to_nat k) ^ Z.to_nat 2 <> 0)
    by (apply pow_nonzero; exact Hden).
  assert (Hq2 : (1 - p) ^ Z.to_nat 2 <> 0) by (apply pow_nonzero; exact Hq).
  repeat (first [ rewrite pow_OK by lia
                | rewrite div_OK by assumption ]; cbn [rbind]).
  change (Z.to_nat 2) with 2%nat. cbn [fst snd].
  fold (Spec.gapVariance p k). fold (Spec.gapMean p k).
  rewrite (sqrt_OK _ Hvar). cbn [rbind].
  rewrite (div_OK 1 (1 - c)) by lra. cbn [rbind].
  rewrite sqrt_OK; [reflexivity|].
  apply Rlt_le, Rdiv_lt_0_compat; lra.
Qed.

(** X12.  With a mutation rate of 0, and the other arguments in range,
    [estimateGapSize] raises [ZeroDivisionError]: every base matches,
    [q = 0], and the mean divides by [q * p^k]. *)
Theorem estimateGapSize_zero_rate (GC : R) (k : Z) (c : R) :
  0 <= GC <= 1 -> (1 <= k)%Z -> 0 < c < 1 ->
  estimateGapSize 0 GC k c = Raise ZeroDivisionError.
Proof.
  intros HGC Hk Hc.
  rewrite estimateGapSize_steps by (assumption || lra).
  assert (Hp : Spec.probHomologousBaseMatch 0 GC = 1).
  { unfold Spec.probHomologousBaseMatch. ring. }
  rewrite Hp. unfold gapMoments. rewrite !pow_OK by lia. cbn [rbind].
  replace ((1 - 1) * 1 ^ Z.to_nat k) with 0 by ring.
  rewrite div_zero. reflexivity.
Qed.

Lemma estimateGapSize_zero_rate_witness :
  estimateGapSize 0 (1 / 2) 21 (95 / 100) = Raise ZeroDivisionError.
Proof.
  apply (estimateGapSize_zero_rate (1 / 2) 21 (95 / 100)); lra || lia.
Defined.

Lemma to_int_IZR (n : Z) : PyFloat.to_int (IZR n) = n.
Proof.
  unfold PyFloat.to_int.
  destruct (PyFloat.leb 0 (IZR n)).
  - apply Zfloor_eq. lra.
  - unfold Zceil. rewrite <- opp_IZR.
    rewrite (Zfloor_eq (- n)) by lra. lia.
Qed.

Lemma estimateSignatureSize_OK (k : Z) :
  estimateSignatureSize k = OK (4 * k)%Z.
Proof.
  unfold estimateSignatureSize. f_equal.
  rewrite <- (to_int_IZR (4 * k)). f_equal. rewrite mult_IZR. reflexivity.
Qed.

End Estimates.

(** ** The inclusion hits at the ends *)

Section InclusionEnds.

Local Open Scope R_scope.

(** X14.  With one inclusion genome the estimate is 1, whatever the
    other arguments in range. *)
Theorem estimateInclusionHits_single (M GC : R) (k : Z) (c : R) :
  0 <= M <= 1 -> 0 <= GC <= 1 -> (1 <= k)%Z -> 0 < c < 1 ->
  estimateInclusionHits 1 M GC k c = OK 1.
Proof.
  intros HM HGC Hk Hc.
  rewrite estimateInclusionHits_OK by (assumption || lia).
  rewrite hits_first. rewrite (Zfloor_eq 1) by lra.
  rewrite Rmax_right by lra. reflexivity.
Qed.

Lemma estimateInclusionHits_single_witness :
  estimateInclusionHits 1 (1 / 100) (1 / 2) 21 (95 / 100) = OK 1.
Proof.
  apply (estimateInclusionHits_single (1 / 100) (1 / 2) 21 (95 / 100));
    lra || lia.
Defined.

Lemma probHKM_inside (M GC : R) (k : Z) :
  0 < M < 1 -> 0 <= GC <= 1 -> (1 <= k)%Z ->
  0 < Spec.probHomologousKmerMatch M GC k < 1.
Proof.
  intros HM HGC Hk. unfold Spec.probHomologousKmerMatch.
  pose proof (probHBM_inside M GC HM HGC) as Hp. split.
  - apply pow_lt. lra.
  - apply pow_lt_1; [lra | lia].
Qed.

Lemma calculateProbHKM_returns (M GC : R) (k : Z) (p : R) :
  calculateProbHKM M GC k = OK p ->
  0 <= M <= 1 /\ 0 <= GC <= 1 /\ (1 <= k)%Z.
Proof.
  intros H. unfold calculateProbHKM in H.
  destruct (PyFloat.ltb M 0 || PyFloat.ltb 1 M)%bool eqn:E1; [discriminate|].
  destruct (PyFloat.ltb GC 0 || PyFloat.ltb 1 GC)%bool eqn:E2; [discriminate|].
  destruct (Z.ltb_spec k 1); [discriminate|].
  apply orb_false_iff in E1 as [E1 E1']. apply orb_false_iff in E2 as [E2 E2'].
  apply ltb_false in E1, E1', E2, E2'. repeat split; lra || lia.
Qed.

(** X15.  With no inclusion genome, whenever the k-mer match probability
    that [calculateProbHKM] returns is strictly between 0 and 1, the
    variance [(N - 1) * p * q] is negative and [estimateInclusionHits]
    raises the [ValueError] of [math.sqrt]. *)
Theorem estimateInclusionHits_empty (M GC : R) (k : Z) (c p : R) :
  0 < c < 1 ->
  calculateProbHKM M GC k = OK p -> 0 < p < 1 ->
  estimateInclusionHits 0 M GC k c = Raise ValueError.
Proof.
  intros Hc HKM Hp.
  destruct (calculateProbHKM_returns M GC k p HKM) as (HM & HGC & Hk).
  unfold estimateInclusionHits.
  rewrite !range_guard by assumption.
  destruct (Z.ltb_spec k 1); [lia|].
  rewrite open_guard by exact Hc.
  rewrite HKM. cbn [rbind].
  rewrite sqrt_negative; [reflexivity|].
  assert (0 < p * (1 - p)) by (apply Rmult_lt_0_compat; lra).
  lra.
Qed.

Lemma estimateInclusionHits_empty_witness :
  estimateInclusionHits 0 (1 / 100) (1 / 2) 21 (95 / 100) = Raise ValueError.
Proof.
  apply (estimateInclusionHits_empty (1 / 100) (1 / 2) 21 (95 / 100)
           (Spec.probHomologousKmerMatch (1 / 100) (1 / 2) 21)).
  - lra.
  - apply calculateProbHKM_OK; lra || lia.
  - apply probHKM_inside; lra || lia.
Defined.

(** X16.  When the number of deviations [norm.ppf(confidence)] is not
    negative, the estimate for [N] inclusion genomes, [1 <= N <= 2^53]
    (the integers [float(N)] keeps), is a whole number between 0 and
    [N]. *)
Theorem estimateInclusionHits_bounded (N : Z) (M GC : R) (k : Z) (c : R) :
  0 <= M <= 1 -> 0 <= GC <= 1 -> (1 <= k)%Z -> 0 < c < 1 ->
  (1 <= N <= 2 ^ 53)%Z ->
  0 <= Normal.ppf c ->
  exists n : Z,
    estimateInclusionHits N M GC k c = OK (IZR n) /\ (0 <= n <= N)%Z.
Proof.
  intros HM HGC Hk Hc [HN _] Hz.
  rewrite estimateInclusionHits_OK by assumption.
  pose proof (probHKM_range M GC k HM HGC) as Hp.
  set (p := Spec.probHomologousKmerMatch M GC k) in *. clearbody p.
  set (x := hits p (Normal.ppf c) (IZR N - 1)).
  assert (Hx : x <= IZR N).
  { subst x. unfold hits. apply IZR_le in HN.
    pose proof (sqrt_pos ((IZR N - 1) * p * (1 - p))).
    assert (0 <= Normal.ppf c * sqrt ((IZR N - 1) * p * (1 - p)))
      by (apply Rmult_le_pos; assumption).
    assert ((IZR N - 1) * p <= IZR N - 1) by nra.
    lra. }
  exists (Z.max 0 (Zfloor x)). split.
  - f_equal. unfold Rmax.
    destruct (Rle_dec 0 (IZR (Zfloor x))) as [H|H].
    + apply le_IZR in H. rewrite Z.max_r by lia. reflexivity.
    + rewrite Z.max_l; [reflexivity|].
      apply Z.lt_le_incl, lt_IZR. lra.
  - split; [lia|]. apply Z.max_lub; [lia|].
    pose proof (Zfloor_bound x) as [Hf _].
    apply le_IZR. lra.
Qed.

Lemma estimateInclusionHits_bounded_witness :
  exists n : Z,
    estimateInclusionHits 5 (1 / 100) (1 / 2) 21 (Normal.cdf 1) = OK (IZR n)
    /\ (0 <= n <= 5)%Z.
Proof.
  pose proof cdf_1_range as Hc.
  apply (estimateInclusionHits_bounded 5 (1 / 100) (1 / 2) 21 (Normal.cdf 1));
    try lra; try lia.
  rewrite ppf_cdf. lra.
Defined.

End InclusionEnds.

(** ** From the estimates to the scan *)

Section Pipeline.

Local Open Scope R_scope.

Lemma gapMoments_zero (p : R) (k : Z) :
  (0 <= k)%Z -> (1 - p) * p ^ Z.to_nat k = 0 ->
  gapMoments p k = Raise ZeroDivisionError.
Proof.
  intros Hk Hden. unfold gapMoments.
  rewrite !pow_OK by lia. cbn [rbind].
  rewrite Hden, div_zero. reflexivity.
Qed.

(** What [estimateGapSize] has checked and computed when it returns. *)
Lemma estimateGapSize_returns (M GC : R) (k : Z) (c : R) (gap : Z) :
  estimateGapSize M GC k c = OK gap ->
  (1 <= k)%Z /\ (1 <= gap)%Z.
Proof.
  intros H.
  assert (Hdom : 0 <= M <= 1 /\ 0 <= GC <= 1 /\ (1 <= k)%Z /\ 0 < c < 1).
  { unfold estimateGapSize in H.
    destruct (PyFloat.ltb M 0 || PyFloat.ltb 1 M)%bool eqn:E1; [discriminate|].
    destruct (PyFloat.ltb GC 0 || PyFloat.ltb 1 GC)%bool eqn:E2; [discriminate|].
    destruct (Z.ltb_spec k 1); [discriminate|].
    destruct (PyFloat.leb c 0 || PyFloat.leb 1 c)%bool eqn:E3; [discriminate|].
    apply orb_false_iff in E1 as [E1 E1']. apply orb_false_iff in E2 as [E2 E2'].
    apply orb_false_iff in E3 as [E3 E3'].
    apply ltb_false in E1, E1', E2, E2'. apply leb_false in E3, E3'.
    repeat split; lra || lia. }
  destruct Hdom as (HM & HGC & Hk & Hc). split; [exact Hk|].
  pose proof (probHBM_range M GC HM HGC) as Hp.
  assert (Hin : 0 < Spec.probHomologousBaseMatch M GC < 1).
  { destruct (Req_dec ((1 - Spec.probHomologousBaseMatch M GC)
                       * Spec.probHomologousBaseMatch M GC ^ Z.to_nat k) 0)
      as [Hz|Hnz].
    - rewrite estimateGapSize_steps in H by assumption.
      rewrite gapMoments_zero in H by (lia || exact Hz). discriminate H.
    - split.
      + destruct (Req_dec (Spec.probHomologousBaseMatch M GC) 0) as [E|E];
          [|lra].
        exfalso. apply Hnz. rewrite E.
        rewrite pow_i by lia. ring.
      + destruct (Req_dec (Spec.probHomologousBaseMatch M GC) 1) as [E|E];
          [|lra].
        exfalso. apply Hnz. rewrite E. ring. }
  rewrite estimateGapSize_value in H by assumption.
  injection H as <-. apply gapSize_pos; assumption.
Qed.

(** X17.  Whenever [estimateGapSize] and [estimateSignatureSize] return
    for a k-mer size, [extract] accepts their values: with a reference,
    an inclusion k-mer, an exclusion dictionary and an output file it
    returns, and none of its range checks fires. *)
Theorem estimates_pass_checks rc (references : gmap string string)
    (inmers exmers : gmap string Z) (file : list Signature)
    (M GC : R) (k : Z) (c : R) (gap size : Z) :
  estimateGapSize M GC k c = OK gap ->
  estimateSignatureSize k = OK size ->
  references <> ∅ -> inmers <> ∅ ->
  exists regions out,
    extract rc (Some references) k (Some inmers) (Some exmers) size gap
            (Some file) = OK (regions, out).
Proof.
  intros Hgap Hsize Hrefs Hin.
  apply estimateGapSize_returns in Hgap as [Hk Hg].
  assert (Hs : size = (4 * k)%Z).
  { rewrite estimateSignatureSize_OK in Hsize.
    injection Hsize as <-. reflexivity. }
  apply dlen_pos in Hrefs. apply dlen_pos in Hin. unfold extract.
  destruct (Z.ltb_spec (dlen references) 1); [lia|].
  destruct (Z.ltb_spec k 1); [lia|].
  destruct (Z.ltb_spec (dlen inmers) 1); [lia|].
  destruct (Z.ltb_spec size 1); [lia|].
  destruct (Z.ltb_spec gap 1); [lia|].
  eauto.
Qed.

Lemma estimates_pass_checks_witness :
  exists regions out,
    extract reverseComplement (Some scenario_references) 21
            (Some scenario_inmers) (Some ∅)
            84 (Spec.gapSize (1 / 100) (1 / 2) 21 (95 / 100)) (Some [])
    = OK (regions, out).
Proof.
  apply (estimates_pass_checks reverseComplement scenario_references
           scenario_inmers ∅ [] (1 / 100) (1 / 2) 21 (95 / 100)).
  - apply estimateGapSize_value; try lra; try lia.
    apply probHBM_inside; lra.
  - apply estimateSignatureSize_OK.
  - apply insert_non_empty.
  - apply insert_non_empty.
Defined.

End Pipeline.

(** ** Tokens *)

Lemma solid_app (s : string) (c : ascii) :
  solid s = true -> PyStr.isspace c = false ->
  solid (s +:+ String c EmptyString) = true.
Proof.
  intros Hs Hc. induction s as [|d s IH]; simpl in *.
  - rewrite Hc. reflexivity.
  - apply andb_true_iff in Hs as [Hd Hs]. rewrite Hd, IH by exact Hs.
    reflexivity.
Qed.

Lemma split_from_solid (s cur : string) :
  solid cur = true -> Forall (fun t => solid t = true) (PyStr.split_from cur s).
Proof.
  revert cur. induction s as [|c s IH]; intros cur Hcur; simpl.
  - destruct cur; [constructor|]. constructor; [exact Hcur | constructor].
  - destruct (PyStr.isspace c) eqn:Hc.
    + destruct cur; [apply IH; reflexivity|].
      constructor; [exact Hcur | apply IH; reflexivity].
    + apply IH, solid_app; assumption.
Qed.

Lemma lstrip_solid (s : string) : solid s = true -> PyStr.lstrip s = s.
Proof.
  destruct s as [|c s]; simpl; [reflexivity|]. intros H.
  apply andb_true_iff in H as [Hc _].
  apply negb_true_iff in Hc. rewrite Hc. reflexivity.
Qed.

Lemma rstrip_solid (s : string) : solid s = true -> PyStr.rstrip s = s.
Proof.
  induction s as [|c s IH]; simpl; [reflexivity|]. intros H.
  apply andb_true_iff in H as [Hc Hs]. apply negb_true_iff in Hc.
  rewrite IH by exact Hs. destruct s; [rewrite Hc|]; reflexivity.
Qed.

Lemma strip_solid (s : string) : solid s = true -> PyStr.strip s = s.
Proof.
  intros H. unfold PyStr.strip. rewrite lstrip_solid by exact H.
  apply rstrip_solid, H.
Qed.

Lemma split_blank (s : string) : blank s = true -> PyStr.split s = [].
Proof.
  unfold PyStr.split. induction s as [|c s IH]; simpl; [reflexivity|].
  intros H. apply andb_true_iff in H as [Hc Hs]. rewrite Hc. apply IH, Hs.
Qed.

(** ** The k-mer size and the file *)

(** X18.  When the first line of the file reads as a k-mer and its two
    counts, [estimateK] returns the length of that k-mer, the key under
    which [buildKMers] stores it. *)
Theorem estimateK_first_kmer (line : string) (rest : list string)
    (kmer : string) (counts : Z * Z) :
  readKMer line = OK (kmer, counts) ->
  estimateK (line :: rest) = OK (PyStr.len kmer).
Proof.
  unfold readKMer, estimateK, readline, index.
  pose proof (split_from_solid line EmptyString eq_refl) as Hsolid.
  fold (PyStr.split line) in Hsolid.
  destruct (PyStr.split line) as [|t0 tokens]; simpl; [discriminate|].
  apply Forall_cons in Hsolid as [H0 _].
  rewrite strip_solid by exact H0.
  destruct tokens as [|t1 tokens]; simpl; [discriminate|].
  destruct (PyStr.to_int (PyStr.strip t1)); simpl; [|discriminate].
  destruct tokens as [|t2 tokens]; simpl; [discriminate|].
  destruct (PyStr.to_int (PyStr.strip t2)); simpl; [|discriminate].
  intros [= <- _]. reflexivity.
Qed.

Lemma estimateK_first_kmer_witness :
  estimateK sample_kmerFile = OK (PyStr.len "AAAAA").
Proof.
  apply (estimateK_first_kmer _ _ "AAAAA" (3, 1)).
  vm_compute. reflexivity.
Defined.

(** X19.  On a file with no line, or whose first line is empty or white
    space only, [estimateK] raises [IndexError]. *)
Theorem estimateK_blank (kmerFile : list string) :
  blank (readline kmerFile) = true ->
  estimateK kmerFile = Raise IndexError.
Proof.
  intros H. unfold estimateK. rewrite split_blank by exact H. reflexivity.
Qed.

Lemma estimateK_blank_witness :
  estimateK [] = Raise IndexError /\
  estimateK [String "010" EmptyString; "AAAAA 3 1"] = Raise IndexError.
Proof.
  split; apply estimateK_blank; reflexivity.
Defined.

(** ** More on the k-mer dictionaries *)

Lemma buildKMers_raises (good : list string)
    (entries : list (string * (Z * Z))) (bad : string) (rest : list string)
    (e : exn) (inmers exmers : gmap string Z) (inhits exhits : R) :
  Forall2 (fun line entry => readKMer line = OK entry) good entries ->
  readKMer bad = Raise e ->
  buildKMers (good ++ bad :: rest) inmers exmers inhits exhits = Raise e.
Proof.
  intros Hgood Hbad. revert inmers exmers.
  induction Hgood as [|line entry lines es Hline _ IH]; intros inmers exmers;
    simpl.
  - rewrite Hbad. reflexivity.
  - rewrite Hline. cbn [rbind]. apply IH.
Qed.

(** X20.  A line that is empty or white space only, after lines that
    read, makes [buildKMers] raise [IndexError], whatever follows it. *)
Theorem buildKMers_blank_line (good : list string)
    (entries : list (string * (Z * Z))) (line : string) (rest : list string)
    (inmers exmers : gmap string Z) (inhits exhits : R) :
  Forall2 (fun line entry => readKMer line = OK entry) good entries ->
  blank line = true ->
  buildKMers (good ++ line :: rest) inmers exmers inhits exhits
    = Raise IndexError.
Proof.
  intros Hgood Hblank. eapply buildKMers_raises; [exact Hgood|].
  unfold readKMer. rewrite split_blank by exact Hblank. reflexivity.
Qed.

Lemma buildKMers_blank_line_witness :
  buildKMers (sample_kmerFile ++ [String "010" EmptyString]) ∅ ∅ 2 1
    = Raise IndexError.
Proof.
  apply (buildKMers_blank_line sample_kmerFile sample_entries
           (String "010" EmptyString) [] ∅ ∅ 2 1).
  - repeat constructor.
  - reflexivity.
Defined.

Section Keys.

Local Open Scope R_scope.

Lemma store_is_Some (hits : R) (kmer : string) (count : Z)
    (mers : gmap string Z) (key : string) :
  is_Some (store hits kmer count mers !! key) <->
  is_Some (mers !! key) \/ (key = kmer /\ hits <= IZR count).
Proof.
  unfold store. destruct (PyFloat.leb hits (IZR count)) eqn:E.
  - apply leb_true in E. rewrite lookup_insert_is_Some. split.
    + intros [->|[_ H]]; [right; auto | left; exact H].
    + intros [H|[-> _]]; [|left; reflexivity].
      destruct (decide (kmer = key)) as [->|Hne]; [left | right]; auto.
  - apply leb_false in E. split; [auto|].
    intros [H|[_ H]]; [exact H | lra].
Qed.

Lemma stored_is_Some (hits : R) (count : Z * Z -> Z)
    (entries : list (string * (Z * Z))) (mers : gmap string Z)
    (key : string) :
  is_Some (stored hits count entries mers !! key) <->
  is_Some (mers !! key) \/
  exists c, In (key, c) entries /\ hits <= IZR (count c).
Proof.
  unfold stored. revert mers.
  induction entries as [|[kmer c] es IH]; intros mers; simpl.
  - split; [auto|]. intros [H|(c & [] & _)]. exact H.
  - rewrite IH, store_is_Some. split.
    + intros [[H|[-> H]]|(c' & Hin & H)].
      * now left.
      * right. exists c. auto.
      * right. exists c'. auto.
    + intros [H|(c' & [Heq|Hin] & H)].
      * left. now left.
      * injection Heq as <- <-. left. right. auto.
      * right. exists c'. auto.
Qed.

(** X21.  For a file whose lines all read, possibly with a k-mer on
    several lines, and dictionaries that may hold keys already: a key is
    in the inclusion dictionary afterwards exactly when it was there
    before or a line gives it an inclusion count of at least [inhits];
    likewise for the exclusion dictionary and [exhits].  No key is ever
    removed. *)
Theorem buildKMers_keys (kmerFile : list string)
    (entries : list (string * (Z * Z))) (inmers exmers : gmap string Z)
    (inhits exhits : R) :
  Forall2 (fun line entry => readKMer line = OK entry) kmerFile entries ->
  exists inmers' exmers' : gmap string Z,
    buildKMers kmerFile inmers exmers inhits exhits = OK (inmers', exmers') /\
    (forall key, is_Some (inmers' !! key) <->
       is_Some (inmers !! key) \/
       exists n x, In (key, (n, x)) entries /\ inhits <= IZR n) /\
    (forall key, is_Some (exmers' !! key) <->
       is_Some (exmers !! key) \/
       exists n x, In (key, (n, x)) entries /\ exhits <= IZR x).
Proof.
  intros Hread. eexists _, _.
  split; [apply buildKMers_stored, Hread|]. split.
  - intros key. rewrite stored_is_Some. split.
    + intros [H|([n x] & Hin & H)]; [now left|]. right. exists n, x. auto.
    + intros [H|(n & x & Hin & H)]; [now left|]. right. exists (n, x). auto.
  - intros key. rewrite stored_is_Some. split.
    + intros [H|([n x] & Hin & H)]; [now left|]. right. exists n, x. auto.
    + intros [H|(n & x & Hin & H)]; [now left|]. right. exists (n, x). auto.
Qed.

Lemma buildKMers_keys_witness :
  exists inmers' exmers' : gmap string Z,
    buildKMers sample_kmerFile scenario_inmers pair_exmers 2 1
      = OK (inmers', exmers') /\
    (forall key, is_Some (inmers' !! key) <->
       is_Some (scenario_inmers !! key) \/
       exists n x, In (key, (n, x)) sample_entries /\ 2 <= IZR n) /\
    (forall key, is_Some (exmers' !! key) <->
       is_Some (pair_exmers !! key) \/
       exists n x, In (key, (n, x)) sample_entries /\ 1 <= IZR x).
Proof.
  apply (buildKMers_keys sample_kmerFile sample_entries
           scenario_inmers pair_exmers 2 1).
  repeat constructor.
Defined.

(** X22.  Raising a threshold can only shrink a dictionary: every key
    stored for the thresholds [inhits'] and [exhits'] is stored for lower
    thresholds [inhits] and [exhits], when the dictionaries start
    empty. *)
Theorem buildKMers_thresholds (kmerFile : list string)
    (inhits exhits inhits' exhits' : R)
    (inmers exmers inmers' exmers' : gmap string Z) :
  inhits <= inhits' -> exhits <= exhits' ->
  buildKMers kmerFile ∅ ∅ inhits exhits = OK (inmers, exmers) ->
  buildKMers kmerFile ∅ ∅ inhits' exhits' = OK (inmers', exmers') ->
  (forall key, is_Some (inmers' !! key) -> is_Some (inmers !! key)) /\
  (forall key, is_Some (exmers' !! key) -> is_Some (exmers !! key)).
Proof.
  intros Hin Hex H H'.
  assert (Hread : exists entries,
            Forall2 (fun line entry => readKMer line = OK entry)
                    kmerFile entries).
  { clear H'. revert H. generalize (∅ : gmap string Z) at 1 as m1.
    generalize (∅ : gmap string Z) as m2.
    induction kmerFile as [|line lines IH]; intros m2 m1 H.
    - exists []. constructor.
    - simpl in H. destruct (readKMer line) as [entry|] eqn:E; [|discriminate].
      cbn [rbind] in H. apply IH in H as [es Hes].
      exists (entry :: es). constructor; assumption. }
  destruct Hread as [entries Hread].
  rewrite (buildKMers_stored inhits exhits _ _ _ _ Hread) in H.
  rewrite (buildKMers_stored inhits' exhits' _ _ _ _ Hread) in H'.
  injection H as <- <-. injection H' as <- <-.
  split; intros key; rewrite !stored_is_Some;
    (intros [Hk|(c & Hc & Hle)]; [now left|]; right; exists c;
     split; [exact Hc | lra]).
Qed.

Lemma buildKMers_thresholds_witness :
  (forall key,
     is_Some (stored 3 fst sample_entries ∅ !! key) ->
     is_Some (stored 2 fst sample_entries ∅ !! key)) /\
  (forall key,
     is_Some (stored 2 snd sample_entries ∅ !! key) ->
     is_Some (stored 1 snd sample_entries ∅ !! key)).
Proof.
  assert (Hread : Forall2 (fun line entry => readKMer line = OK entry)
                          sample_kmerFile sample_entries)
    by repeat constructor.
  apply (buildKMers_thresholds sample_kmerFile 2 1 3 2);
    [lra | lra | |]; apply buildKMers_stored, Hread.
Defined.

End Keys.

(** ** The gap the chain tolerates *)

(** X23.  At an inclusion hit that is no exclusion hit, an open chain
    whose last hit was at the window [end - 1] is extended when at most
    [gap + 1] windows were passed without a hit since, that is
    [i - end <= gap + 1]; otherwise the chain is closed, its region kept
    when it is long enough, and a new chain starts at the window. *)
Theorem step_gap_tolerance rc ref key k (inmers exmers : gmap string Z)
    size gap (s : scan) (i : Z) :
  0 <= start s -> 0 <= end_ s ->
  hit rc ref k exmers i = false ->
  hit rc ref k inmers i = true ->
  step rc ref key k inmers exmers size gap s i =
    if i - end_ s <=? gap + 1
    then mkScan (start s) (i + 1) (regions s)
    else mkScan (i + k - 1) (i + 1)
           (if size <=? end_ s - start s
            then regions s ++
                 [mkRegion (PyStr.slice ref (start s) (end_ s)) key (start s)]
            else regions s).
Proof.
  intros Hs He Hex Hin. rewrite step_hit, Hex, Hin. unfold build, close.
  replace ((start s <? 0) && (end_ s <? 0))%bool with false
    by (symmetry; apply andb_false_iff; left; apply Z.ltb_ge; lia).
  replace ((0 <=? start s) && (0 <=? end_ s))%bool with true
    by (symmetry; apply andb_true_iff; split; apply Z.leb_le; lia).
  destruct (Z.leb_spec (i - (end_ s + 1)) gap),
           (Z.leb_spec (i - end_ s) (gap + 1)); (reflexivity || lia).
Qed.

Lemma step_gap_tolerance_witness :
  step reverseComplement "AAAACCAAAA" "ref" 2 pair_inmers ∅ 1 1
       (mkScan 1 3 []) 6
  = if 6 - 3 <=? 1 + 1 then mkScan 1 (6 + 1) []
    else mkScan (6 + 2 - 1) (6 + 1)
           (if 1 <=? 3 - 1
            then [] ++ [mkRegion (PyStr.slice "AAAACCAAAA" 1 3) "ref" 1]
            else []).
Proof.
  apply (step_gap_tolerance reverseComplement "AAAACCAAAA" "ref" 2
           pair_inmers ∅ 1 1 (mkScan 1 3 []) 6);
    [simpl; lia | simpl; lia | vm_compute; reflexivity
     | vm_compute; reflexivity].
Defined.

(** ** More on the estimates *)

Section MoreEstimates.

Local Open Scope R_scope.

(** X24.  With a mutation rate of 0 every k-mer matches, and the
    estimate of the inclusion hits is the number [N] of inclusion genomes
    itself, for [0 <= N <= 2^53] (the integers [float(N)] keeps). *)
Theorem estimateInclusionHits_zero_rate (N : Z) (GC : R) (k : Z) (c : R) :
  0 <= GC <= 1 -> (1 <= k)%Z -> 0 < c < 1 -> (0 <= N <= 2 ^ 53)%Z ->
  estimateInclusionHits N 0 GC k c = OK (IZR N).
Proof.
  intros HGC Hk Hc [HN _]. unfold estimateInclusionHits.
  rewrite !range_guard by (assumption || lra).
  destruct (Z.ltb_spec k 1); [lia|].
  rewrite open_guard by exact Hc.
  rewrite calculateProbHKM_OK by (assumption || lra). cbn [rbind].
  assert (Hp : Spec.probHomologousKmerMatch 0 GC k = 1).
  { unfold Spec.probHomologousKmerMatch.
    replace (Spec.probHomologousBaseMatch 0 GC) with 1
      by (unfold Spec.probHomologousBaseMatch; ring).
    apply pow1. }
  rewrite Hp.
  replace ((IZR N - 1) * 1 * (1 - 1)) with 0 by ring.
  rewrite sqrt_OK by lra. cbn [rbind]. rewrite sqrt_0.
  replace (1 + (IZR N - 1) * 1 - Normal.ppf c * 0) with (IZR N) by ring.
  rewrite ZfloorZ. apply IZR_le in HN.
  rewrite Rmax_right by lra. reflexivity.
Qed.

Lemma estimateInclusionHits_zero_rate_witness :
  estimateInclusionHits 7 0 (1 / 2) 21 (95 / 100) = OK (IZR 7).
Proof.
  apply (estimateInclusionHits_zero_rate 7 (1 / 2) 21 (95 / 100));
    lra || lia.
Defined.

(** X25.  The gap size does not shrink when the confidence grows, the
    other arguments fixed. *)
Theorem estimateGapSize_confidence (M GC : R) (k : Z) (c1 c2 : R)
    (gap1 gap2 : Z) :
  c1 <= c2 ->
  estimateGapSize M GC k c1 = OK gap1 ->
  estimateGapSize M GC k c2 = OK gap2 ->
  (gap1 <= gap2)%Z.
Proof.
  intros Hc H1 H2.
  assert (Hdom : forall c gap, estimateGapSize M GC k c = OK gap ->
            0 <= M <= 1 /\ 0 <= GC <= 1 /\ (1 <= k)%Z /\ 0 < c < 1).
  { intros c gap H. unfold estimateGapSize in H.
    destruct (PyFloat.ltb M 0 || PyFloat.ltb 1 M)%bool eqn:E1; [discriminate|].
    destruct (PyFloat.ltb GC 0 || PyFloat.ltb 1 GC)%bool eqn:E2; [discriminate|].
    destruct (Z.ltb_spec k 1); [discriminate|].
    destruct (PyFloat.leb c 0 || PyFloat.leb 1 c)%bool eqn:E3; [discriminate|].
    apply orb_false_iff in E1 as [E1 E1']. apply orb_false_iff in E2 as [E2 E2'].
    apply orb_false_iff in E3 as [E3 E3'].
    apply ltb_false in E1, E1', E2, E2'. apply leb_false in E3, E3'.
    repeat split; lra || lia. }
  destruct (Hdom c1 gap1 H1) as (HM & HGC & Hk & Hc1).
  destruct (Hdom c2 gap2 H2) as (_ & _ & _ & Hc2).
  rewrite estimateGapSize_steps in H1, H2 by assumption.
  destruct (gapMoments (Spec.probHomologousBaseMatch M GC) k)
    as [[mean variance]|e]; [|discriminate].
  cbn [rbind fst snd] in H1, H2. unfold gapEstimate in H1, H2.
  destruct (Rlt_dec variance 0) as [Hv|Hv].
  { rewrite sqrt_negative in H1 by exact Hv. discriminate. }
  rewrite sqrt_OK in H1, H2 by lra. cbn [rbind] in H1, H2.
  rewrite div_OK in H1, H2 by lra. cbn [rbind] in H1, H2.
  assert (Hd1 : 0 < 1 / (1 - c1)) by (apply Rdiv_lt_0_compat; lra).
  assert (Hd2 : 0 < 1 / (1 - c2)) by (apply Rdiv_lt_0_compat; lra).
  rewrite sqrt_OK in H1, H2 by lra. cbn [rbind] in H1, H2.
  injection H1 as <-. injection H2 as <-.
  apply Zceil_le.
  assert (Hle : 1 / (1 - c1) <= 1 / (1 - c2)).
  { unfold Rdiv. rewrite !Rmult_1_l. apply Rinv_le_contravar; lra. }
  pose proof (sqrt_le_1 _ _ (Rlt_le _ _ Hd1) (Rlt_le _ _ Hd2) Hle).
  pose proof (sqrt_pos variance).
  assert (sqrt (1 / (1 - c1)) * sqrt variance
          <= sqrt (1 / (1 - c2)) * sqrt variance)
    by (apply Rmult_le_compat_r; assumption).
  lra.
Qed.

Lemma estimateGapSize_confidence_witness :
  (Spec.gapSize (1 / 100) (1 / 2) 21 (90 / 100)
   <= Spec.gapSize (1 / 100) (1 / 2) 21 (95 / 100))%Z.
Proof.
  apply (estimateGapSize_confidence (1 / 100) (1 / 2) 21
           (90 / 100) (95 / 100)); [lra | |];
    (apply estimateGapSize_value; try lra; try lia;
     apply probHBM_inside; lra).
Defined.

End MoreEstimates.
